(** * A shallow embedding of the tree-view state engine

    The development follows the source of the [Tree] component
    (the implementation with roving focus and global check-state
    reconciliation, and the older implementation with the local
    check-state policy).  JavaScript [Set<string>] values are finite sets
    of strings, [Map<string, _>] values are finite maps, arrays are lists,
    optional properties are options.  Event handlers are modelled as pure
    functions returning the list of calls they make on the callbacks and
    state setters they close over. *)

From stdpp Require Import base gmap strings list fin_maps fin_sets.
From Stdlib Require Import ZArith.

Open Scope string_scope.
Open Scope list_scope.
Set Warnings "-clear-no-such-hyp".

(* ===================================================================== *)
(** ** Types *)
(* ===================================================================== *)

(** [interface TreeNode]: only the fields the state engine reads.
    [children?: TreeNode[]] may be absent; [disabled?: boolean] is read
    through its truthiness only, so an absent flag is [false]. *)
#[warnings="-register-all"]
Inductive TreeNode : Type :=
  mkNode { id : string; children : option (list TreeNode); disabled : bool }.

(** [Boolean(node.children && node.children.length > 0)] *)
Definition hasChildren (node : TreeNode) : bool :=
  match children node with
  | Some (_ :: _) => true
  | _ => false
  end.

(** [node.children || []] *)
Definition childrenOrEmpty (node : TreeNode) : list TreeNode :=
  default [] (children node).

(* ===================================================================== *)
(** ** Helper functions *)
(* ===================================================================== *)

(** [getAllDescendantIds(children)]: every id below, in pre-order. *)
Fixpoint getAllDescendantIds_node (child : TreeNode) : list string :=
  match child with
  | mkNode i ch _ =>
      i :: match ch with
           | Some l =>
               match l with
               | [] => []
               | _ :: _ => flat_map getAllDescendantIds_node l
               end
           | None => []
           end
  end.

Definition getAllDescendantIds (children : list TreeNode) : list string :=
  flat_map getAllDescendantIds_node children.

(** [getLeafNodeIds(nodes)]: ids of the nodes without children. *)
Fixpoint getLeafNodeIds_node (childNode : TreeNode) : list string :=
  match childNode with
  | mkNode i ch _ =>
      match ch with
      | Some l =>
          match l with
          | [] => [i]
          | _ :: _ => flat_map getLeafNodeIds_node l
          end
      | None => [i]
      end
  end.

Definition getLeafNodeIds (nodes : list TreeNode) : list string :=
  flat_map getLeafNodeIds_node nodes.

(** [leafIds.every((id) => checkedSet.has(id))] *)
Definition everyChecked (leafIds : list string) (checkedSet : gset string) : bool :=
  forallb (λ i, bool_decide (i ∈ checkedSet)) leafIds.

(** [updateParentCheckStates(nodes, checkedSet)].  The source mutates the
    set it is given; here the set is threaded through the loop. *)
Fixpoint updateParentCheckStates_node (node : TreeNode) (checkedSet : gset string)
  : gset string :=
  match node with
  | mkNode i ch _ =>
      match ch with
      | Some l =>
          match l with
          | [] => checkedSet
          | _ :: _ =>
              let checkedSet1 :=
                fold_left (λ s c, updateParentCheckStates_node c s) l checkedSet in
              let leafIds := flat_map getLeafNodeIds_node l in
              if everyChecked leafIds checkedSet1
              then checkedSet1 ∪ {[ i ]}
              else checkedSet1 ∖ {[ i ]}
          end
      | None => checkedSet
      end
  end.

Definition updateParentCheckStates (nodes : list TreeNode) (checkedSet : gset string)
  : gset string :=
  fold_left (λ s node, updateParentCheckStates_node node s) nodes checkedSet.

(** [for (const id of ids) currentSet.delete(id)] and
    [for (const id of ids) currentSet.add(id)] *)
Definition deleteAll (ids : list string) (currentSet : gset string) : gset string :=
  fold_left (λ s i, s ∖ {[ i ]}) ids currentSet.

Definition addAll (ids : list string) (currentSet : gset string) : gset string :=
  fold_left (λ s i, s ∪ {[ i ]}) ids currentSet.

(** [array.indexOf(x)]: the first index holding [x], or [-1]. *)
Fixpoint indexOf (l : list string) (x : string) : Z :=
  match l with
  | [] => -1
  | y :: l' =>
      if bool_decide (y = x) then 0
      else let r := indexOf l' x in if (r <? 0)%Z then -1 else (r + 1)%Z
  end.

(** Truthiness of a [string | null | undefined] value: the empty string
    is falsy, like [null]. *)
Definition truthy (s : option string) : bool :=
  match s with
  | Some v => negb (bool_decide (v = ""))
  | None => false
  end.

(* ===================================================================== *)
(** ** Tree root *)
(* ===================================================================== *)

(** The calls a handler makes on the callbacks and setters it closes
    over, in order.  An array built with [Array.from(set)] is kept as the
    set it lists. *)
Inductive Call : Type :=
  | OnExpandedChange (expanded : gset string)
  | SetInternalExpanded (newExpanded : gset string)
  | OnCheckedNodesChange (checked : gset string)
  | OnNodeSelect (nodeId : string)
  | Focus (nodeId : string)
  | SetLastFocusedNodeId (nodeId : option string).

(** [interface TreeProps]: a callback is kept as the flag telling whether
    the caller supplied it. *)
Record TreeProps : Type := mkProps {
  props_data : list TreeNode;
  props_selectedNode : option string;
  props_onNodeSelect : bool;
  props_defaultExpanded : list string;
  props_expanded : option (list string);
  props_onExpandedChange : bool;
  props_checkedNodes : option (list string);
  props_onCheckedNodesChange : bool;
  props_enableBulkActions : bool;
  props_disableSelection : bool
}.

(** The state the [Tree] component owns: two [useState] cells and the
    keys of the [focusableNodes] element registry. *)
Record TreeState : Type := mkState {
  internalExpanded : gset string;
  lastFocused : option string;
  registered : gset string
}.

(** [buildParentMap(nodes, parentId)] *)
Fixpoint buildParentMap_node (parentId : option string) (node : TreeNode)
    (parentMap : gmap string string) : gmap string string :=
  match node with
  | mkNode i ch _ =>
      let parentMap1 :=
        match parentId with
        | Some p => if truthy parentId then <[ i := p ]> parentMap else parentMap
        | None => parentMap
        end in
      match ch with
      | Some l => fold_left (λ m c, buildParentMap_node (Some i) c m) l parentMap1
      | None => parentMap1
      end
  end.

Definition buildParentMap (nodes : list TreeNode) (parentId : option string)
    (parentMap : gmap string string) : gmap string string :=
  fold_left (λ m node, buildParentMap_node parentId node m) nodes parentMap.

(** [collectVisibleIds(nodes)]: the two accumulators [ids] and
    [disabledMap] the closure pushes to are threaded as a pair. *)
Fixpoint collectVisibleIds_node (expandedNodes : gset string) (node : TreeNode)
    (acc : list string * gmap string bool) : list string * gmap string bool :=
  match node with
  | mkNode i ch d =>
      let ids := acc.1 ++ [i] in
      let disabledMap := if d then <[ i := true ]> acc.2 else acc.2 in
      match ch with
      | Some l =>
          if bool_decide (i ∈ expandedNodes)
          then fold_left (λ a c, collectVisibleIds_node expandedNodes c a) l
                 (ids, disabledMap)
          else (ids, disabledMap)
      | None => (ids, disabledMap)
      end
  end.

Definition collectVisibleIds (expandedNodes : gset string) (nodes : list TreeNode)
    (acc : list string * gmap string bool) : list string * gmap string bool :=
  fold_left (λ a node, collectVisibleIds_node expandedNodes node a) nodes acc.

(** [handleToggleNode(nodeId)] *)
Definition handleToggleNode (props : TreeProps) (expandedNodes : gset string)
    (nodeId : string) : list Call :=
  let newExpanded :=
    if bool_decide (nodeId ∈ expandedNodes)
    then expandedNodes ∖ {[ nodeId ]}
    else expandedNodes ∪ {[ nodeId ]} in
  if bool_decide (is_Some (props_expanded props)) && props_onExpandedChange props
  then [OnExpandedChange newExpanded]
  else [SetInternalExpanded newExpanded].

(** [interface TreeContextValue] *)
Record TreeContextValue : Type := mkContext {
  selectedNode : option string;
  onNodeSelect : bool;
  expandedNodes : gset string;
  onToggleNode : string → list Call;
  checkedNodes : option (gset string);
  onCheckedNodesChange : bool;
  enableBulkActions : bool;
  disableSelection : bool;
  focusableNodes : gset string;
  visibleNodeIds : list string;
  disabledNodesMap : gmap string bool;
  parentNodeMap : gmap string string;
  lastFocusedNodeId : option string;
  data : list TreeNode
}.

(** The context value the [Tree] function provides to its items. *)
Definition Tree_expandedNodes (props : TreeProps) (st : TreeState) : gset string :=
  match props_expanded props with
  | Some expanded => list_to_set expanded
  | None => internalExpanded st
  end.

Definition Tree_context (props : TreeProps) (st : TreeState) : TreeContextValue :=
  let expandedNodes := Tree_expandedNodes props st in
  let collected := collectVisibleIds expandedNodes (props_data props) ([], ∅) in
  {| selectedNode := props_selectedNode props;
     onNodeSelect := props_onNodeSelect props;
     expandedNodes := expandedNodes;
     onToggleNode := handleToggleNode props expandedNodes;
     checkedNodes := list_to_set <$> props_checkedNodes props;
     onCheckedNodesChange := props_onCheckedNodesChange props;
     enableBulkActions := props_enableBulkActions props;
     disableSelection := props_disableSelection props;
     focusableNodes := registered st;
     visibleNodeIds := collected.1;
     disabledNodesMap := collected.2;
     parentNodeMap := buildParentMap (props_data props) None ∅;
     lastFocusedNodeId := lastFocused st;
     data := props_data props |}.

(** The state at mount: [useState(new Set(defaultExpanded))],
    [useState(null)], an empty registry. *)
Definition Tree_initialState (props : TreeProps) : TreeState :=
  {| internalExpanded := list_to_set (props_defaultExpanded props);
     lastFocused := None;
     registered := ∅ |}.

(** [useTreeContext()]: the one place that throws. *)
Definition useTreeContext (provided : option TreeContextValue)
  : string + TreeContextValue :=
  match provided with
  | None => inl "Tree components must be used within a Tree"
  | Some context => inr context
  end.

(* ===================================================================== *)
(** ** Custom hook: checkbox state of a parent's group *)
(* ===================================================================== *)

(** [allDescendantIds] and [allLeafIds] of [useTreeCheckboxState] *)
Definition allDescendantIds (node : TreeNode) : list string :=
  if hasChildren node then getAllDescendantIds (childrenOrEmpty node) else [].

Definition allLeafIds (node : TreeNode) : list string :=
  if hasChildren node then getLeafNodeIds (childrenOrEmpty node) else [].

(** [handleLocalCheckboxChange(newValues)], global reconciliation. *)
Definition handleLocalCheckboxChange (context : TreeContextValue) (node : TreeNode)
    (newValues : list string) : list Call :=
  match checkedNodes context with
  | Some checked =>
      if negb (onCheckedNodesChange context) then []
      else
        let currentSet := checked in
        let currentSet := deleteAll (allDescendantIds node) currentSet in
        let currentSet := addAll newValues currentSet in
        let currentSet := updateParentCheckStates (data context) currentSet in
        [OnCheckedNodesChange currentSet]
  | None => []
  end.

(** The older implementation of the component: the same hook, where only
    the membership of the group's own parent is recomputed. *)
Module LocalPolicy.

Record TreeContextValue : Type := mkContext {
  selectedNode : option string;
  onNodeSelect : bool;
  expandedNodes : gset string;
  onToggleNode : string → list Call;
  checkedNodes : option (gset string);
  onCheckedNodesChange : bool;
  showCheckboxes : bool;
  disableSelection : bool
}.

Definition handleLocalCheckboxChange (context : TreeContextValue) (node : TreeNode)
    (newValues : list string) : list Call :=
  match checkedNodes context with
  | Some checked =>
      if negb (onCheckedNodesChange context) then []
      else
        let currentSet := checked in
        let currentSet := deleteAll (allDescendantIds node) currentSet in
        let currentSet := addAll newValues currentSet in
        let currentSet :=
          if bool_decide (length newValues = length (allLeafIds node))
          then currentSet ∪ {[ id node ]}
          else currentSet ∖ {[ id node ]} in
        [OnCheckedNodesChange currentSet]
  | None => []
  end.

End LocalPolicy.

(* ===================================================================== *)
(** ** TreeItemInternal *)
(* ===================================================================== *)

Inductive Key : Type :=
  | Key_Space | Key_Enter | Key_ArrowRight | Key_ArrowLeft
  | Key_ArrowDown | Key_ArrowUp | Key_Home | Key_End | Key_Other.

Section TreeItemInternal.

Variable context : TreeContextValue.
Variable node : TreeNode.

Definition isExpanded : bool := bool_decide (id node ∈ expandedNodes context).
Definition isSelected : bool := bool_decide (selectedNode context = Some (id node)).
Definition isDisabled : bool := disabled node.

Definition isChecked : bool :=
  match checkedNodes context with
  | Some checked =>
      if enableBulkActions context then bool_decide (id node ∈ checked) else false
  | None => false
  end.

(** Roving tabindex *)
Definition isFirstNode : bool :=
  bool_decide (head (visibleNodeIds context) = Some (id node)).
Definition isLastFocused : bool :=
  bool_decide (lastFocusedNodeId context = Some (id node)).
Definition isTabbable : bool :=
  isLastFocused || (negb (truthy (lastFocusedNodeId context)) && isFirstNode).

(** [tabIndex={isDisabled ? -1 : isTabbable ? 0 : -1}] *)
Definition tabIndex : Z :=
  if isDisabled then (-1)%Z else if isTabbable then 0%Z else (-1)%Z.

(** [handleToggleChecked()] *)
Definition handleToggleChecked : list Call :=
  match checkedNodes context with
  | Some checked =>
      if negb (onCheckedNodesChange context) then []
      else
        let currentSet := checked in
        let allDescendantIds :=
          if hasChildren node then getAllDescendantIds (childrenOrEmpty node)
          else [] in
        let currentSet :=
          if isChecked
          then deleteAll allDescendantIds (currentSet ∖ {[ id node ]})
          else addAll allDescendantIds (currentSet ∪ {[ id node ]}) in
        let currentSet := updateParentCheckStates (data context) currentSet in
        [OnCheckedNodesChange currentSet]
  | None => []
  end.

(** [context.onNodeSelect?.(node.id)] *)
Definition callOnNodeSelect : list Call :=
  if onNodeSelect context then [OnNodeSelect (id node)] else [].

(** [handleClick(e)] *)
Definition handleClick : list Call :=
  if isDisabled then []
  else if enableBulkActions context then handleToggleChecked
  else if negb (disableSelection context) then callOnNodeSelect
  else [].

(** The [onClick] of a parent's row in bulk mode: clicking the row's
    content expands or collapses. *)
Definition bulkParentRow_onClick : list Call :=
  if negb isDisabled then onToggleNode context (id node) else [].

(** The element lookup, [focus()] and [setLastFocusedNodeId] at the end
    of a scan. *)
Definition focusFound (found : option string) : list Call :=
  match found with
  | Some nodeId => [Focus nodeId; SetLastFocusedNodeId (Some nodeId)]
  | None => []
  end.

(** The scan of [ArrowDown] ([while (nextIndex < length)]) and of [Home]
    ([for (i = 0; i < length; i++)]): skip the ids of the disabled map
    and the ids with no registered element, stop at the first other id.
    [fuel] bounds the iterations; the length of the array is enough. *)
Fixpoint scanForward (fuel : nat) (nextIndex : nat) : option string :=
  match fuel with
  | O => None
  | S fuel' =>
      match visibleNodeIds context !! nextIndex with
      | None => None
      | Some nextId =>
          if bool_decide (is_Some (disabledNodesMap context !! nextId))
          then scanForward fuel' (S nextIndex)
          else if bool_decide (nextId ∈ focusableNodes context)
          then Some nextId
          else scanForward fuel' (S nextIndex)
      end
  end.

(** The scan of [ArrowUp] ([while (prevIndex >= 0)]) and of [End]
    ([for (i = length - 1; i >= 0; i--)]), where [count] is the index
    to look at plus one. *)
Fixpoint scanBackward (count : nat) : option string :=
  match count with
  | O => None
  | S prevIndex =>
      match visibleNodeIds context !! prevIndex with
      | None => scanBackward prevIndex
      | Some prevId =>
          if bool_decide (is_Some (disabledNodesMap context !! prevId))
          then scanBackward prevIndex
          else if bool_decide (prevId ∈ focusableNodes context)
          then Some prevId
          else scanBackward prevIndex
      end
  end.

(** [handleKeyDown(e)] *)
Definition handleKeyDown (key : Key) : list Call :=
  if isDisabled then []
  else
    let currentIndex := indexOf (visibleNodeIds context) (id node) in
    match key with
    | Key_Space =>
        if enableBulkActions context then handleToggleChecked
        else
          (if hasChildren node then onToggleNode context (id node) else [])
          ++ (if negb (disableSelection context) then callOnNodeSelect else [])
    | Key_Enter =>
        if enableBulkActions context then
          if hasChildren node then onToggleNode context (id node)
          else handleToggleChecked
        else
          (if hasChildren node then onToggleNode context (id node) else [])
          ++ (if negb (disableSelection context) then callOnNodeSelect else [])
    | Key_ArrowRight =>
        if hasChildren node && negb isExpanded
        then onToggleNode context (id node) else []
    | Key_ArrowLeft =>
        if hasChildren node && isExpanded then onToggleNode context (id node)
        else
          match parentNodeMap context !! id node with
          | Some parentId =>
              if truthy (Some parentId)
                 && bool_decide (parentId ∈ focusableNodes context)
              then [Focus parentId; SetLastFocusedNodeId (Some parentId)]
              else []
          | None => []
          end
    | Key_ArrowDown =>
        let nextIndex := (currentIndex + 1)%Z in
        focusFound
          (scanForward (length (visibleNodeIds context)) (Z.to_nat nextIndex))
    | Key_ArrowUp =>
        let prevIndex := (currentIndex - 1)%Z in
        focusFound (scanBackward (Z.to_nat (prevIndex + 1)))
    | Key_Home =>
        focusFound (scanForward (length (visibleNodeIds context)) 0)
    | Key_End =>
        focusFound (scanBackward (length (visibleNodeIds context)))
    | Key_Other => []
    end.

End TreeItemInternal.

(** What a rendered tree item exposes of the node it shows. *)
Record TreeItemView : Type := mkView {
  view_id : string;
  view_depth : nat;
  view_tabIndex : Z;
  view_disabled : bool
}.

(** The items [TreeItemInternal] puts on screen for a node: the node's own
    row, and, under a parent whose collapsible panel is open
    ([open={isExpanded}]), the rows of its children one level deeper. *)
Fixpoint TreeItemInternal_render (context : TreeContextValue) (depth : nat)
    (node : TreeNode) : list TreeItemView :=
  match node with
  | mkNode i ch d =>
      {| view_id := i; view_depth := depth;
         view_tabIndex := tabIndex context (mkNode i ch d);
         view_disabled := d |}
      :: match ch with
         | Some l =>
             match l with
             | [] => []
             | _ :: _ =>
                 if bool_decide (i ∈ expandedNodes context)
                 then flat_map (TreeItemInternal_render context (S depth)) l
                 else []
             end
         | None => []
         end
  end.

(** [data.map((node) => <TreeItemInternal node={node} depth={0} />)] *)
Definition Tree_render (props : TreeProps) (st : TreeState) : list TreeItemView :=
  flat_map (TreeItemInternal_render (Tree_context props st) 0) (props_data props).

(** The rows that take part in the tab order. *)
Definition focusTargets (views : list TreeItemView) : list string :=
  view_id <$> filter (λ v, view_tabIndex v = 0%Z) views.

(* ===================================================================== *)
(** ** Vocabulary of the properties *)
(* ===================================================================== *)

(** Every node of a forest, in pre-order. *)
Fixpoint allNodes_node (node : TreeNode) : list TreeNode :=
  match node with
  | mkNode i ch d =>
      mkNode i ch d
      :: match ch with
         | Some l => flat_map allNodes_node l
         | None => []
         end
  end.

Definition allNodes (nodes : list TreeNode) : list TreeNode :=
  flat_map allNodes_node nodes.

(** Node ids are unique across the whole tree. *)
Definition uniqueIds (nodes : list TreeNode) : Prop :=
  NoDup (getAllDescendantIds nodes).

(** The leaf descendants of a parent, as the reconciliation reads them. *)
Definition leafDescendants (parent : TreeNode) : list string :=
  getLeafNodeIds (childrenOrEmpty parent).

(** The parents of a forest in the order [updateParentCheckStates] settles
    them: children before their parent, siblings left to right. *)
Fixpoint postorderParents_node (node : TreeNode) : list TreeNode :=
  match node with
  | mkNode i ch d =>
      match ch with
      | Some l =>
          match l with
          | [] => []
          | _ :: _ => flat_map postorderParents_node l ++ [mkNode i ch d]
          end
      | None => []
      end
  end.

Definition postorderParents (nodes : list TreeNode) : list TreeNode :=
  flat_map postorderParents_node nodes.

(** The body of the loop of [updateParentCheckStates] for one parent, once
    its children are settled. *)
Definition setParent (checkedSet : gset string) (parent : TreeNode) : gset string :=
  if everyChecked (leafDescendants parent) checkedSet
  then checkedSet ∪ {[ id parent ]}
  else checkedSet ∖ {[ id parent ]}.

(** The core invariant of the checked set: a parent is a member exactly
    when all its leaf descendants are. *)
Definition PropagationConsistent (nodes : list TreeNode) (checkedSet : gset string)
  : Prop :=
  ∀ parent, parent ∈ allNodes nodes → hasChildren parent = true →
    (id parent ∈ checkedSet ↔ ∀ leafId, leafId ∈ leafDescendants parent → leafId ∈ checkedSet).

(** One committed change of the checked set: a toggle of some node or a
    change reported by some parent's checkbox group, in a context that
    shows the tree [nodes] and the checked set [checked], handing
    [checked'] to [onCheckedNodesChange]. *)
Inductive checkedTransition (nodes : list TreeNode) (checked checked' : gset string)
  : Prop :=
  | transition_toggle (context : TreeContextValue) (node : TreeNode) :
      data context = nodes →
      checkedNodes context = Some checked →
      handleToggleChecked context node = [OnCheckedNodesChange checked'] →
      checkedTransition nodes checked checked'
  | transition_local (context : TreeContextValue) (node : TreeNode)
      (newValues : list string) :
      data context = nodes →
      checkedNodes context = Some checked →
      handleLocalCheckboxChange context node newValues
        = [OnCheckedNodesChange checked'] →
      checkedTransition nodes checked checked'.

(** Every node of a forest in pre-order, each with the ids of its
    ancestors from the root down to its parent; [ancestors] are those of
    the forest's own nodes. *)
Fixpoint nodesWithAncestors_node (ancestors : list string) (node : TreeNode)
  : list (list string * TreeNode) :=
  match node with
  | mkNode i ch d =>
      (ancestors, mkNode i ch d)
      :: match ch with
         | Some l => flat_map (nodesWithAncestors_node (ancestors ++ [i])) l
         | None => []
         end
  end.

Definition nodesWithAncestors (ancestors : list string) (nodes : list TreeNode)
  : list (list string * TreeNode) :=
  flat_map (nodesWithAncestors_node ancestors) nodes.

(** Every id of the chain is a member of the expanded set. *)
Definition allExpanded (expanded : gset string) (ancestors : list string) : bool :=
  forallb (λ a, bool_decide (a ∈ expanded)) ancestors.

(** The nodes whose whole chain of ancestors is expanded, in pre-order. *)
Definition visibleNodes (expanded : gset string) (nodes : list TreeNode)
  : list TreeNode :=
  snd <$> filter (λ an, allExpanded expanded an.1 = true) (nodesWithAncestors [] nodes).

(** [disabledMap.set(node.id, true)] for the disabled nodes of a list. *)
Definition markDisabled (nodes : list TreeNode) (disabledMap : gmap string bool)
  : gmap string bool :=
  fold_left (λ m n, if disabled n then <[ id n := true ]> m else m) nodes disabledMap.

(** The statement that the disabled map holds every disabled node of the
    whole tree, whatever is expanded. *)
Definition DisabledMapCoversTree : Prop :=
  ∀ (props : TreeProps) (st : TreeState) (node : TreeNode),
    node ∈ allNodes (props_data props) → disabled node = true →
    is_Some (disabledNodesMap (Tree_context props st) !! id node).

(** The four navigation commands: move-next, move-previous, jump-first,
    jump-last. *)
Definition isNavigationKey (key : Key) : bool :=
  match key with
  | Key_ArrowDown | Key_ArrowUp | Key_Home | Key_End => true
  | _ => false
  end.

(** The indices a navigation command looks at, starting from the index
    of the current node. *)
Definition inScanDirection (key : Key) (currentIndex : Z) (j : nat) : Prop :=
  match key with
  | Key_ArrowDown => (currentIndex < Z.of_nat j)%Z
  | Key_ArrowUp => (Z.of_nat j < currentIndex)%Z
  | Key_Home | Key_End => True
  | _ => False
  end.

(** An id a scan stops at: not in the disabled map, with a registered
    element. *)
Definition eligible (context : TreeContextValue) (nodeId : string) : bool :=
  negb (bool_decide (is_Some (disabledNodesMap context !! nodeId)))
  && bool_decide (nodeId ∈ focusableNodes context).

(** A handler call changes the checked set, or the expanded set, when it
    hands a new one to the callback or setter that owns it. *)
Definition changesChecked (calls : list Call) : Prop :=
  ∃ checked, OnCheckedNodesChange checked ∈ calls.

Definition changesExpanded (calls : list Call) : Prop :=
  ∃ expanded, OnExpandedChange expanded ∈ calls ∨ SetInternalExpanded expanded ∈ calls.

(** A set with the membership of one id flipped. *)
Definition flipped (x : string) (s : gset string) : gset string :=
  if bool_decide (x ∈ s) then s ∖ {[ x ]} else s ∪ {[ x ]}.

(** How an operation of a mounted tree item ends: the item first obtains
    its context with [useTreeContext], which throws when no [Tree]
    provides one; the handlers themselves have no [throw]. *)
Inductive Outcome : Type :=
  | Threw (message : string)
  | Returned (calls : list Call).

Definition mounted_handleToggleChecked (provided : option TreeContextValue)
    (node : TreeNode) : Outcome :=
  match useTreeContext provided with
  | inl message => Threw message
  | inr context => Returned (handleToggleChecked context node)
  end.

Definition mounted_handleLocalCheckboxChange (provided : option TreeContextValue)
    (node : TreeNode) (newValues : list string) : Outcome :=
  match useTreeContext provided with
  | inl message => Threw message
  | inr context => Returned (handleLocalCheckboxChange context node newValues)
  end.

(** The statement that a checkbox operation without its callback or its
    checked-state input ends in an error. *)
Definition MissingCheckedInputFailsFast : Prop :=
  ∀ (context : TreeContextValue) (node : TreeNode),
    checkedNodes context = None ∨ onCheckedNodesChange context = false →
    ∃ message, mounted_handleToggleChecked (Some context) node = Threw message.

(** The row of a node, as [TreeItemInternal] renders it. *)
Definition viewOf (context : TreeContextValue) (depth : nat) (node : TreeNode)
  : TreeItemView :=
  {| view_id := id node; view_depth := depth;
     view_tabIndex := tabIndex context node;
     view_disabled := disabled node |}.

(** The focus target the roving-tabindex rule names: the last-focused id
    when it is the id of a visible enabled row, otherwise the first
    visible enabled row. *)
Definition rovingTarget (views : list TreeItemView) (focusedId : option string)
  : option string :=
  let enabledIds := view_id <$> filter (λ v, view_disabled v = false) views in
  match focusedId with
  | Some f => if bool_decide (f ∈ enabledIds) then Some f else head enabledIds
  | None => head enabledIds
  end.

(** The statement that the rows in the tab order are exactly that one
    target, in every state of a tree with unique ids. *)
Definition RovingUniqueness : Prop :=
  ∀ (props : TreeProps) (st : TreeState),
    uniqueIds (props_data props) →
    focusTargets (Tree_render props st)
    = option_list (rovingTarget (Tree_render props st) (lastFocused st)).

(* ===================================================================== *)
(** ** Sample trees and contexts *)
(* ===================================================================== *)

Definition leaf (i : string) : TreeNode := mkNode i None false.
Definition parent (i : string) (l : list TreeNode) : TreeNode := mkNode i (Some l) false.

(** [root{leafA, leafB}] *)
Definition sampleFlat : list TreeNode :=
  [parent "root" [leaf "leafA"; leaf "leafB"]].

(** [root{mid{l1, l2}, l3}] *)
Definition sampleNested : list TreeNode :=
  [parent "root" [parent "mid" [leaf "l1"; leaf "l2"]; leaf "l3"]].

(** A tree with a disabled leaf under a parent. *)
Definition sampleDisabledChild : list TreeNode :=
  [parent "a" [mkNode "b" None true]; leaf "c"].

(** Props in navigation mode, uncontrolled, no callback supplied. *)
Definition propsOf (nodes : list TreeNode) : TreeProps :=
  {| props_data := nodes; props_selectedNode := None; props_onNodeSelect := false;
     props_defaultExpanded := []; props_expanded := None;
     props_onExpandedChange := false; props_checkedNodes := None;
     props_onCheckedNodesChange := false;
     props_enableBulkActions := false; props_disableSelection := false |}.

(** Props in bulk mode over a checked set, with the checked callback
    supplied. *)
Definition bulkProps (nodes : list TreeNode) (checked : gset string) : TreeProps :=
  {| props_data := nodes; props_selectedNode := None; props_onNodeSelect := false;
     props_defaultExpanded := []; props_expanded := None;
     props_onExpandedChange := false;
     props_checkedNodes := Some (elements checked);
     props_onCheckedNodesChange := true;
     props_enableBulkActions := true; props_disableSelection := false |}.

Definition stateOf (expanded : gset string) (focused : option string) : TreeState :=
  {| internalExpanded := expanded; lastFocused := focused; registered := ∅ |}.

(** The context of a tree in bulk mode, everything collapsed, nothing
    focused. *)
Definition bulkContext (nodes : list TreeNode) (checked : gset string)
  : TreeContextValue :=
  Tree_context (bulkProps nodes checked) (stateOf ∅ None).

(** The same checked set and callback, as the older implementation's
    context holds them. *)
Definition localPolicyContext (checked : gset string) : LocalPolicy.TreeContextValue :=
  {| LocalPolicy.selectedNode := None; LocalPolicy.onNodeSelect := false;
     LocalPolicy.expandedNodes := ∅; LocalPolicy.onToggleNode := λ _, [];
     LocalPolicy.checkedNodes := Some checked;
     LocalPolicy.onCheckedNodesChange := true;
     LocalPolicy.showCheckboxes := true; LocalPolicy.disableSelection := false |}.

(** A context for navigation: [a; b; c; d] visible, [b] and [d] disabled,
    every row registered. *)
Definition sampleNavContext : TreeContextValue :=
  {| selectedNode := None; onNodeSelect := false; expandedNodes := ∅;
     onToggleNode := λ _, [];
     checkedNodes := None; onCheckedNodesChange := false;
     enableBulkActions := false; disableSelection := false;
     focusableNodes := {[ "a"; "b"; "c"; "d" ]};
     visibleNodeIds := ["a"; "b"; "c"; "d"];
     disabledNodesMap := {[ "b" := true; "d" := true ]};
     parentNodeMap := ∅; lastFocusedNodeId := Some "a";
     data := [leaf "a"; mkNode "b" None true; leaf "c"; mkNode "d" None true] |}.

(* ===================================================================== *)
(** ** The rest of the component *)
(* ===================================================================== *)

(** [localChildValues] of [useTreeCheckboxState]: the value handed to the
    parent's checkbox group. *)
Definition localChildValues (context : TreeContextValue) (node : TreeNode)
  : list string :=
  match checkedNodes context with
  | Some checked =>
      if negb (hasChildren node) || negb (enableBulkActions context) then []
      else filter (λ i, i ∈ checked) (allDescendantIds node)
  | None => []
  end.

(** Indentation constants and [paddingLeft]. *)
Definition INDENT_SIZE : nat := 20.
Definition INDENT_SIZE_WITH_CHECKBOX : nat := 12.

Definition paddingLeft (context : TreeContextValue) (depth : nat) : nat :=
  depth * (if enableBulkActions context then INDENT_SIZE_WITH_CHECKBOX else INDENT_SIZE).

(** The effect of a handler's calls on the state the [Tree] owns: the two
    [useState] setters replace their cell; callbacks of the caller and
    [focus()] leave it alone. *)
Definition applyCall (st : TreeState) (call : Call) : TreeState :=
  match call with
  | SetInternalExpanded newExpanded =>
      {| internalExpanded := newExpanded; lastFocused := lastFocused st;
         registered := registered st |}
  | SetLastFocusedNodeId nodeId =>
      {| internalExpanded := internalExpanded st; lastFocused := nodeId;
         registered := registered st |}
  | _ => st
  end.

Definition applyCalls (st : TreeState) (calls : list Call) : TreeState :=
  fold_left applyCall calls st.

(** The tree item of the older implementation: no roving focus, no bulk
    toggling from the keyboard. *)
Module LocalPolicyItem.

Section TreeItemInternal.

Variable context : LocalPolicy.TreeContextValue.
Variable node : TreeNode.

Definition isExpanded : bool :=
  bool_decide (id node ∈ LocalPolicy.expandedNodes context).
Definition isDisabled : bool := disabled node.

Definition callOnNodeSelect : list Call :=
  if LocalPolicy.onNodeSelect context then [OnNodeSelect (id node)] else [].

(** [handleClick(e)] *)
Definition handleClick : list Call :=
  if isDisabled || LocalPolicy.disableSelection context then []
  else callOnNodeSelect.

(** [handleKeyDown(e)] *)
Definition handleKeyDown (key : Key) : list Call :=
  if isDisabled then []
  else
    match key with
    | Key_Enter | Key_Space =>
        (if hasChildren node then LocalPolicy.onToggleNode context (id node) else [])
        ++ (if negb (LocalPolicy.disableSelection context) then callOnNodeSelect else [])
    | Key_ArrowRight =>
        if hasChildren node && negb isExpanded
        then LocalPolicy.onToggleNode context (id node) else []
    | Key_ArrowLeft =>
        if hasChildren node && isExpanded
        then LocalPolicy.onToggleNode context (id node) else []
    | _ => []
    end.

(** [tabIndex={isDisabled ? -1 : 0}] *)
Definition tabIndex : Z := if isDisabled then (-1)%Z else 0%Z.

(** [localChildValues] *)
Definition localChildValues : list string :=
  match LocalPolicy.checkedNodes context with
  | Some checked =>
      if negb (hasChildren node) || negb (LocalPolicy.showCheckboxes context) then []
      else filter (λ i, i ∈ checked) (allDescendantIds node)
  | None => []
  end.

End TreeItemInternal.

End LocalPolicyItem.

(** The part of a context the older implementation has as well. *)
Definition toLocalPolicy (context : TreeContextValue) : LocalPolicy.TreeContextValue :=
  {| LocalPolicy.selectedNode := selectedNode context;
     LocalPolicy.onNodeSelect := onNodeSelect context;
     LocalPolicy.expandedNodes := expandedNodes context;
     LocalPolicy.onToggleNode := onToggleNode context;
     LocalPolicy.checkedNodes := checkedNodes context;
     LocalPolicy.onCheckedNodesChange := onCheckedNodesChange context;
     LocalPolicy.showCheckboxes := enableBulkActions context;
     LocalPolicy.disableSelection := disableSelection context |}.

(** *** The demo page *)

(** The feature toggles of the demo page and the switches that set them. *)
Inductive TreeVariant : Type := variant_default | variant_nested | variant_outline.

Record PageState : Type := mkPage {
  showCheckboxes : bool;
  showLines : bool;
  page_disableSelection : bool;
  variant : TreeVariant
}.

(** [useState(false)], [useState(true)], [useState(true)],
    [useState("outline")] *)
Definition initialPage : PageState :=
  {| showCheckboxes := false; showLines := true;
     page_disableSelection := true; variant := variant_outline |}.

(** The [onCheckedChange] of each switch, with the value it reports. *)
Inductive PageEvent : Type :=
  | CheckboxesSwitch (checked : bool)
  | LinesSwitch (checked : bool)
  | DisableSelectionSwitch (checked : bool)
  | VariantSwitch (v : TreeVariant) (checked : bool).

Definition pageStep (page : PageState) (event : PageEvent) : PageState :=
  match event with
  | CheckboxesSwitch checked =>
      {| showCheckboxes := checked;
         showLines := if checked then false else showLines page;
         page_disableSelection := page_disableSelection page;
         variant := variant page |}
  | LinesSwitch checked =>
      {| showCheckboxes := if checked then false else showCheckboxes page;
         showLines := checked;
         page_disableSelection := page_disableSelection page;
         variant := variant page |}
  | DisableSelectionSwitch checked =>
      {| showCheckboxes := showCheckboxes page; showLines := showLines page;
         page_disableSelection := checked; variant := variant page |}
  | VariantSwitch v checked =>
      {| showCheckboxes := showCheckboxes page; showLines := showLines page;
         page_disableSelection := page_disableSelection page;
         variant := if checked then v else variant page |}
  end.

(** [createTreeData()]: the ids, the child arrays and the one disabled
    flag of the demo tree. *)
Definition createTreeData : list TreeNode :=
  [ mkNode "src" (Some
      [ mkNode "components" (Some
          [ mkNode "ui" (Some
              [ mkNode "button.tsx" None false;
                mkNode "card.tsx" None false;
                mkNode "dialog.tsx" None false ]) false;
            mkNode "tree.tsx" None false;
            mkNode "form.tsx" None true ]) false;
        mkNode "lib" (Some
          [ mkNode "utils.ts" None false;
            mkNode "hooks.ts" None false ]) false;
        mkNode "app" (Some
          [ mkNode "page.tsx" None false;
            mkNode "layout.tsx" None false ]) false ]) false;
    mkNode "public" (Some
      [ mkNode "images" (Some
          [ mkNode "logo.png" None false;
            mkNode "banner.jpg" None false ]) false ]) false;
    mkNode "package.json" None false;
    mkNode "README.md" None false ].

(** Props over the demo tree in bulk mode, with the page's
    [defaultExpanded] and its callbacks supplied. *)
Definition demoProps (checked : list string) : TreeProps :=
  {| props_data := createTreeData; props_selectedNode := None;
     props_onNodeSelect := true;
     props_defaultExpanded := ["src"; "components"]; props_expanded := None;
     props_onExpandedChange := false;
     props_checkedNodes := Some checked;
     props_onCheckedNodesChange := true;
     props_enableBulkActions := true; props_disableSelection := true |}.

(** [onFocus={() => context.setLastFocusedNodeId(node.id)}] of a row. *)
Definition handleFocus (node : TreeNode) : list Call :=
  [SetLastFocusedNodeId (Some (id node))].

(* ===================================================================== *)
(** * Properties *)
(* ===================================================================== *)

(** ** Induction over trees *)

(** Induction over a node with the induction hypothesis on all the
    children of its (possibly absent) child array. *)
Lemma TreeNode_forest_ind (P : TreeNode → Prop) :
  (∀ i ch d, (∀ l, ch = Some l → Forall P l) → P (mkNode i ch d)) →
  ∀ n, P n.
Proof.
  intros step. fix IH 1. intros [i ch d]. apply step.
  destruct ch as [l|]; [|discriminate].
  assert (HF : Forall P l).
  { induction l as [|c l IHl]; constructor; [apply IH | exact IHl]. }
  intros l' [= <-]. exact HF.
Qed.

(** Induction over an array of nodes: the empty array, and a node in front
    of an array, where the property is known for the node's child array
    (the empty array when the node has none). *)
Lemma forest_ind (P : list TreeNode → Prop) :
  P [] →
  (∀ node rest, P (childrenOrEmpty node) → P rest → P (node :: rest)) →
  ∀ nodes, P nodes.
Proof.
  intros Hnil Hcons.
  assert (Hnode : ∀ n, P (childrenOrEmpty n)).
  { induction n as [i ch d IHn] using TreeNode_forest_ind.
    destruct ch as [l|]; [|exact Hnil].
    specialize (IHn l eq_refl). unfold childrenOrEmpty; simpl.
    induction IHn as [|c l' Hc _ IHl]; [exact Hnil|].
    apply Hcons; [exact Hc | exact IHl]. }
  induction nodes as [|n rest IH]; [exact Hnil|].
  apply Hcons; [apply Hnode | exact IH].
Qed.


(** ** Lists *)

Lemma elem_of_flat_map {A B} (f : A → list B) (l : list A) (y : B) :
  y ∈ flat_map f l ↔ ∃ x, x ∈ l ∧ y ∈ f x.
Proof.
  induction l as [|a l IH]; simpl.
  - split; [intros H | intros (x & H & _)]; by apply not_elem_of_nil in H.
  - rewrite elem_of_app, IH. split.
    + intros [H|(x & Hx & Hy)]; [exists a | exists x]; split; try done;
        [apply list_elem_of_here | by apply list_elem_of_further].
    + intros (x & Hx & Hy). apply elem_of_cons in Hx as [->|Hx]; [by left|].
      right. by exists x.
Qed.

Lemma NoDup_fmap_inj_on {A B} (f : A → B) (l : list A) :
  NoDup (f <$> l) → ∀ a b, a ∈ l → b ∈ l → f a = f b → a = b.
Proof.
  induction l as [|x l IH]; intros Hnd a b Ha Hb Hab.
  - by apply not_elem_of_nil in Ha.
  - rewrite fmap_cons in Hnd. apply NoDup_cons in Hnd as [Hx Hnd].
    apply elem_of_cons in Ha as [->|Ha]; apply elem_of_cons in Hb as [->|Hb].
    + done.
    + exfalso. apply Hx. rewrite Hab. by apply list_elem_of_fmap_2.
    + exfalso. apply Hx. rewrite <- Hab. by apply list_elem_of_fmap_2.
    + by apply IH.
Qed.

Lemma everyChecked_true (ids : list string) (checkedSet : gset string) :
  everyChecked ids checkedSet = true ↔ ∀ i, i ∈ ids → i ∈ checkedSet.
Proof.
  unfold everyChecked. rewrite forallb_forall. split; intros H i Hi.
  - apply list_elem_of_In in Hi. apply H in Hi. by apply bool_decide_eq_true in Hi.
  - apply bool_decide_eq_true. apply H. by apply list_elem_of_In.
Qed.

Lemma elem_of_deleteAll (ids : list string) (s : gset string) (x : string) :
  x ∈ deleteAll ids s ↔ x ∈ s ∧ x ∉ ids.
Proof.
  unfold deleteAll. revert s. induction ids as [|i ids IH]; intros s; simpl.
  - split; [intros H; split; [done | apply not_elem_of_nil] | by intros [? _]].
  - rewrite IH, not_elem_of_cons. set_solver.
Qed.

Lemma elem_of_addAll (ids : list string) (s : gset string) (x : string) :
  x ∈ addAll ids s ↔ x ∈ s ∨ x ∈ ids.
Proof.
  unfold addAll. revert s. induction ids as [|i ids IH]; intros s; simpl.
  - split; [by left | intros [?|H]; [done | by apply not_elem_of_nil in H]].
  - rewrite IH, elem_of_cons. set_solver.
Qed.

(** ** The helper functions, one loop iteration at a time *)

Lemma allNodes_cons node rest :
  allNodes (node :: rest)
  = node :: allNodes (childrenOrEmpty node) ++ allNodes rest.
Proof. by destruct node as [i [l|] d]. Qed.

Lemma getAllDescendantIds_cons child rest :
  getAllDescendantIds (child :: rest)
  = id child
    :: (if hasChildren child then getAllDescendantIds (childrenOrEmpty child) else [])
    ++ getAllDescendantIds rest.
Proof. by destruct child as [i [[|c l]|] d]. Qed.

Lemma getLeafNodeIds_cons childNode rest :
  getLeafNodeIds (childNode :: rest)
  = (if hasChildren childNode then getLeafNodeIds (childrenOrEmpty childNode)
     else [id childNode])
    ++ getLeafNodeIds rest.
Proof. by destruct childNode as [i [[|c l]|] d]. Qed.

Lemma updateParentCheckStates_cons node rest checkedSet :
  updateParentCheckStates (node :: rest) checkedSet
  = updateParentCheckStates rest
      (if hasChildren node
       then setParent (updateParentCheckStates (childrenOrEmpty node) checkedSet) node
       else checkedSet).
Proof. by destruct node as [i [[|c l]|] d]. Qed.

Lemma postorderParents_cons node rest :
  postorderParents (node :: rest)
  = (if hasChildren node then postorderParents (childrenOrEmpty node) ++ [node] else [])
    ++ postorderParents rest.
Proof. by destruct node as [i [[|c l]|] d]. Qed.

Lemma childrenOrEmpty_leaf node : hasChildren node = false → childrenOrEmpty node = [].
Proof. by destruct node as [i [[|c l]|] d]. Qed.

Lemma getAllDescendantIds_allNodes nodes :
  getAllDescendantIds nodes = id <$> allNodes nodes.
Proof.
  induction nodes as [|node rest IHc IHr] using forest_ind; [done|].
  rewrite getAllDescendantIds_cons, allNodes_cons, fmap_cons, fmap_app.
  rewrite <- IHc, <- IHr. destruct (hasChildren node) eqn:Hc; [done|].
  by rewrite (childrenOrEmpty_leaf _ Hc).
Qed.

(** ** Parents and leaves of a forest *)

Lemma updateParentCheckStates_fold nodes checkedSet :
  updateParentCheckStates nodes checkedSet
  = fold_left setParent (postorderParents nodes) checkedSet.
Proof.
  revert checkedSet.
  induction nodes as [|node rest IHc IHr] using forest_ind; intros cs; [done|].
  rewrite updateParentCheckStates_cons, postorderParents_cons, fold_left_app, IHr.
  destruct (hasChildren node); [|done].
  by rewrite fold_left_app, IHc.
Qed.

Lemma elem_of_postorderParents nodes p :
  p ∈ postorderParents nodes ↔ p ∈ allNodes nodes ∧ hasChildren p = true.
Proof.
  induction nodes as [|node rest IHc IHr] using forest_ind.
  - split; [intros H | intros [H _]]; by apply not_elem_of_nil in H.
  - rewrite postorderParents_cons, allNodes_cons, elem_of_app, elem_of_cons,
      elem_of_app, IHr.
    destruct (hasChildren node) eqn:Hc.
    + rewrite elem_of_app, IHc, list_elem_of_singleton. split.
      * intros [[[? ?]| ->]|[? ?]]; auto.
      * intros [[->|[?|?]] ?]; auto.
    + rewrite (childrenOrEmpty_leaf _ Hc). split.
      * intros [H|[? ?]]; [by apply not_elem_of_nil in H | auto].
      * intros [[->|[H|?]] ?]; [congruence | by apply not_elem_of_nil in H | auto].
Qed.

Lemma postorderParents_ids_NoDup nodes :
  NoDup (id <$> allNodes nodes) → NoDup (id <$> postorderParents nodes).
Proof.
  induction nodes as [|node rest IHc IHr] using forest_ind; [done|].
  rewrite postorderParents_cons, allNodes_cons, fmap_cons, !fmap_app.
  intros Hnd. apply NoDup_cons in Hnd as [Hid Hnd].
  apply NoDup_app in Hnd as (Hndc & Hdisj & Hndr).
  apply NoDup_app. split; [|split].
  - destruct (hasChildren node); [|constructor].
    rewrite fmap_app. apply NoDup_app. split; [by apply IHc|]. split.
    + intros x Hx Hx'. apply list_elem_of_singleton in Hx'. subst x.
      apply Hid, elem_of_app. left.
      apply list_elem_of_fmap in Hx as (p & -> & Hp).
      apply elem_of_postorderParents in Hp as [Hp _]. by apply list_elem_of_fmap_2.
    + apply NoDup_singleton.
  - intros x Hx Hx'.
    apply list_elem_of_fmap in Hx' as (q & -> & Hq).
    apply elem_of_postorderParents in Hq as [Hq _].
    destruct (hasChildren node); [|by apply not_elem_of_nil in Hx].
    rewrite fmap_app in Hx. apply elem_of_app in Hx as [Hx|Hx].
    + apply (Hdisj (id q)); [|by apply list_elem_of_fmap_2].
      apply list_elem_of_fmap in Hx as (p & -> & Hp).
      apply elem_of_postorderParents in Hp as [Hp _]. by apply list_elem_of_fmap_2.
    + apply list_elem_of_singleton in Hx. apply Hid, elem_of_app. right.
      rewrite <- Hx. by apply list_elem_of_fmap_2.
  - by apply IHr.
Qed.

(** A leaf id is the id of a node without children. *)
Lemma elem_of_getLeafNodeIds nodes x :
  x ∈ getLeafNodeIds nodes
  ↔ ∃ n, n ∈ allNodes nodes ∧ hasChildren n = false ∧ id n = x.
Proof.
  induction nodes as [|node rest IHc IHr] using forest_ind.
  - split; [intros H | intros (n & H & _)]; by apply not_elem_of_nil in H.
  - rewrite getLeafNodeIds_cons, allNodes_cons, elem_of_app, IHr. split.
    + intros [H|(n & Hn & Hl & Hx)].
      * destruct (hasChildren node) eqn:Hc.
        -- apply IHc in H as (n & Hn & Hl & Hx). exists n. split; [|done].
           apply elem_of_cons. right. apply elem_of_app. by left.
        -- apply list_elem_of_singleton in H. exists node.
           split; [apply list_elem_of_here | done].
      * exists n. split; [|done].
        apply elem_of_cons. right. apply elem_of_app. by right.
    + intros (n & Hn & Hl & Hx).
      apply elem_of_cons in Hn as [->|Hn]; [|apply elem_of_app in Hn as [Hn|Hn]].
      * left. rewrite Hl. by apply list_elem_of_singleton.
      * left. destruct (hasChildren node) eqn:Hc.
        -- apply IHc. by exists n.
        -- rewrite (childrenOrEmpty_leaf _ Hc) in Hn. by apply not_elem_of_nil in Hn.
      * right. by exists n.
Qed.

(** The nodes below a node of the forest are nodes of the forest. *)
Lemma allNodes_children nodes p n :
  p ∈ allNodes nodes → n ∈ allNodes (childrenOrEmpty p) → n ∈ allNodes nodes.
Proof.
  induction nodes as [|node rest IHc IHr] using forest_ind; intros Hp Hn.
  - by apply not_elem_of_nil in Hp.
  - rewrite allNodes_cons in *.
    apply elem_of_cons in Hp as [->|Hp]; [|apply elem_of_app in Hp as [Hp|Hp]].
    + apply elem_of_cons. right. apply elem_of_app. by left.
    + apply elem_of_cons. right. apply elem_of_app. left. by apply IHc.
    + apply elem_of_cons. right. apply elem_of_app. right. by apply IHr.
Qed.

(** With unique ids, no id is at once that of a parent and that of a leaf
    descendant of some parent. *)
Lemma parent_id_not_leaf nodes p q :
  uniqueIds nodes → p ∈ allNodes nodes → hasChildren p = true →
  q ∈ allNodes nodes → id p ∉ leafDescendants q.
Proof.
  unfold uniqueIds, leafDescendants. rewrite getAllDescendantIds_allNodes.
  intros Hnd Hp Hpc Hq Hin.
  apply elem_of_getLeafNodeIds in Hin as (n & Hn & Hl & Hid).
  assert (n = p) as ->; [|congruence].
  apply (NoDup_fmap_inj_on id (allNodes nodes)); try done.
  by apply (allNodes_children nodes q).
Qed.

(** ** Global reconciliation *)

Lemma elem_of_setParent checkedSet p x :
  x ∈ setParent checkedSet p
  ↔ (x = id p ∧ ∀ y, y ∈ leafDescendants p → y ∈ checkedSet)
    ∨ (x ≠ id p ∧ x ∈ checkedSet).
Proof.
  unfold setParent.
  destruct (everyChecked (leafDescendants p) checkedSet) eqn:He.
  - pose proof (proj1 (everyChecked_true _ _) He) as Hall.
    destruct (decide (x = id p)) as [->|Hne]; set_solver.
  - assert (Hn : ¬ ∀ y, y ∈ leafDescendants p → y ∈ checkedSet).
    { intros H. pose proof (proj2 (everyChecked_true _ _) H). congruence. }
    destruct (decide (x = id p)) as [->|Hne]; set_solver.
Qed.

(** Settling a list of parents one after the other, when their ids are
    distinct and none of them is a leaf descendant of one of them: the
    ids of the parents are decided by the leaves as they were at the
    start, every other id is left alone. *)
Lemma fold_setParent_spec (ps : list TreeNode) :
  NoDup (id <$> ps) →
  (∀ p q, p ∈ ps → q ∈ ps → id p ∉ leafDescendants q) →
  ∀ checkedSet x,
    x ∈ fold_left setParent ps checkedSet
    ↔ ((x ∉ (id <$> ps)) ∧ x ∈ checkedSet)
      ∨ (∃ p, p ∈ ps ∧ id p = x ∧ ∀ y, y ∈ leafDescendants p → y ∈ checkedSet).
Proof.
  induction ps as [|p ps IH]; intros Hnd Hdisj cs x; simpl.
  - split; [intros H; left; split; [apply not_elem_of_nil | done]|].
    intros [[_ H]|(p & Hp & _)]; [done | by apply not_elem_of_nil in Hp].
  - apply NoDup_cons in Hnd as [Hp Hnd].
    assert (Hleaves : ∀ q, q ∈ ps →
              (∀ y, y ∈ leafDescendants q → y ∈ setParent cs p)
              ↔ (∀ y, y ∈ leafDescendants q → y ∈ cs)).
    { intros q Hq. split; intros H y Hy; specialize (H y Hy).
      - apply elem_of_setParent in H as [[-> _]|[_ H]]; [|done].
        exfalso. eapply Hdisj; [apply list_elem_of_here | | exact Hy].
        by apply list_elem_of_further.
      - apply elem_of_setParent. right. split; [|done]. intros ->.
        eapply Hdisj; [apply list_elem_of_here | | exact Hy].
        by apply list_elem_of_further. }
    rewrite IH; [|done|]; last first.
    { intros p' q' Hp' Hq'. apply Hdisj; by apply list_elem_of_further. }
    rewrite elem_of_setParent, not_elem_of_cons. split.
    + intros [[Hx [[-> Hall]|[Hne Hcs]]]|(q & Hq & <- & Hall)].
      * right. exists p. split; [apply list_elem_of_here | done].
      * by left.
      * right. exists q. split; [by apply list_elem_of_further|].
        split; [done|]. by apply Hleaves.
    + intros [[[Hne Hx] Hcs]|(q & Hq & <- & Hall)]; [left; split; auto|].
      apply elem_of_cons in Hq as [->|Hq].
      * left. split; [done|]. by left.
      * right. exists q. split; [done|]. split; [done|]. by apply Hleaves.
Qed.

(** The parent ids of a forest. *)
Lemma elem_of_parent_ids nodes x :
  x ∈ (id <$> postorderParents nodes)
  ↔ ∃ p, p ∈ allNodes nodes ∧ hasChildren p = true ∧ id p = x.
Proof.
  rewrite list_elem_of_fmap. split.
  - intros (p & -> & Hp). apply elem_of_postorderParents in Hp as [? ?]. by exists p.
  - intros (p & Hp & Hc & <-). exists p. split; [done|].
    by apply elem_of_postorderParents.
Qed.

(** What [updateParentCheckStates] computes on a tree with unique ids. *)
Lemma updateParentCheckStates_spec nodes checkedSet x :
  uniqueIds nodes →
  x ∈ updateParentCheckStates nodes checkedSet
  ↔ ((¬ ∃ p, p ∈ allNodes nodes ∧ hasChildren p = true ∧ id p = x) ∧ x ∈ checkedSet)
    ∨ (∃ p, p ∈ allNodes nodes ∧ hasChildren p = true ∧ id p = x
            ∧ ∀ y, y ∈ leafDescendants p → y ∈ checkedSet).
Proof.
  intros Hu. rewrite updateParentCheckStates_fold, fold_setParent_spec.
  - rewrite elem_of_parent_ids. split.
    + intros [?|(p & Hp & <- & Hall)]; [by left|]. right.
      apply elem_of_postorderParents in Hp as [? ?]. by exists p.
    + intros [?|(p & Hp & Hc & <- & Hall)]; [by left|]. right.
      exists p. split; [by apply elem_of_postorderParents | done].
  - apply postorderParents_ids_NoDup. by rewrite <- getAllDescendantIds_allNodes.
  - intros p q Hp Hq.
    apply elem_of_postorderParents in Hp as [Hp Hpc].
    apply elem_of_postorderParents in Hq as [Hq _].
    by apply (parent_id_not_leaf nodes).
Qed.

(** Without any assumption on the ids: an id that is not the id of a
    parent keeps its membership. *)
Lemma updateParentCheckStates_frame nodes checkedSet x :
  (¬ ∃ p, p ∈ allNodes nodes ∧ hasChildren p = true ∧ id p = x) →
  (x ∈ updateParentCheckStates nodes checkedSet ↔ x ∈ checkedSet).
Proof.
  rewrite <- elem_of_parent_ids, updateParentCheckStates_fold.
  generalize (postorderParents nodes). intros ps. revert checkedSet.
  induction ps as [|p ps IH]; intros cs Hx; simpl; [done|].
  rewrite fmap_cons, not_elem_of_cons in Hx. destruct Hx as [Hne Hx].
  rewrite IH by done. unfold setParent.
  destruct (everyChecked _ _); set_solver.
Qed.

(** With unique ids, the leaves below a parent keep their membership. *)
Lemma updateParentCheckStates_leaves nodes checkedSet q :
  uniqueIds nodes → q ∈ allNodes nodes →
  (∀ y, y ∈ leafDescendants q → y ∈ updateParentCheckStates nodes checkedSet)
  ↔ (∀ y, y ∈ leafDescendants q → y ∈ checkedSet).
Proof.
  intros Hu Hq.
  assert (Hfr : ∀ y, y ∈ leafDescendants q →
            (y ∈ updateParentCheckStates nodes checkedSet ↔ y ∈ checkedSet)).
  { intros y Hy. apply updateParentCheckStates_frame.
    intros (p & Hp & Hc & Hid). subst y.
    by apply (parent_id_not_leaf nodes p q). }
  split; intros H y Hy; apply Hfr; auto.
Qed.

(** With unique ids, a leaf of the tree keeps its membership. *)
Lemma updateParentCheckStates_leaf_membership nodes checkedSet leafNode :
  uniqueIds nodes → leafNode ∈ allNodes nodes → hasChildren leafNode = false →
  (id leafNode ∈ updateParentCheckStates nodes checkedSet ↔ id leafNode ∈ checkedSet).
Proof.
  intros Hu Hn Hl. apply updateParentCheckStates_frame.
  intros (p & Hp & Hc & Hid).
  assert (p = leafNode) as ->; [|congruence].
  apply (NoDup_fmap_inj_on id (allNodes nodes)); try done.
  by rewrite <- getAllDescendantIds_allNodes.
Qed.

Lemma updateParentCheckStates_consistent nodes checkedSet :
  uniqueIds nodes →
  PropagationConsistent nodes (updateParentCheckStates nodes checkedSet).
Proof.
  intros Hu p Hp Hc.
  rewrite updateParentCheckStates_leaves by done.
  rewrite updateParentCheckStates_spec by done. split.
  - intros [[Hn _]|(p' & Hp' & Hc' & Hid & Hall)].
    + exfalso. apply Hn. by exists p.
    + assert (p' = p) as ->; [|done].
      apply (NoDup_fmap_inj_on id (allNodes nodes)); try done.
      by rewrite <- getAllDescendantIds_allNodes.
  - intros Hall. right. by exists p.
Qed.

Lemma uniqueIds_sampleFlat : uniqueIds sampleFlat.
Proof. unfold uniqueIds. compute_done. Qed.

Lemma uniqueIds_sampleNested : uniqueIds sampleNested.
Proof. unfold uniqueIds. compute_done. Qed.

(** C9. Global reconciliation is idempotent: on a tree whose node ids are
    unique, running [updateParentCheckStates] on its own result gives that
    result again. *)
Theorem updateParentCheckStates_idempotent nodes checkedSet :
  uniqueIds nodes →
  updateParentCheckStates nodes (updateParentCheckStates nodes checkedSet)
  = updateParentCheckStates nodes checkedSet.
Proof.
  intros Hu. apply set_eq. intros x.
  etrans; [by apply updateParentCheckStates_spec|].
  symmetry. etrans; [by apply updateParentCheckStates_spec|]. symmetry.
  split.
  - intros [[Hn Hx]|(p & Hp & Hc & Hid & Hall)].
    + left. split; [done|]. by apply updateParentCheckStates_frame in Hx.
    + right. exists p. repeat split; try done.
      by apply (updateParentCheckStates_leaves nodes checkedSet p).
  - intros [[Hn Hx]|(p & Hp & Hc & Hid & Hall)].
    + left. split; [done|]. by apply updateParentCheckStates_frame.
    + right. exists p. repeat split; try done.
      by apply (updateParentCheckStates_leaves nodes checkedSet p).
Qed.

Lemma updateParentCheckStates_idempotent_witness :
  updateParentCheckStates sampleNested
    (updateParentCheckStates sampleNested {[ "l1"; "l2"; "root" ]})
  = updateParentCheckStates sampleNested {[ "l1"; "l2"; "root" ]}.
Proof.
  apply (updateParentCheckStates_idempotent sampleNested).
  unfold uniqueIds. compute_done.
Defined.

(** When two nodes share an id the second run can undo the first: the
    uniqueness of ids is needed. *)
Lemma updateParentCheckStates_shared_id :
  let nodes := [parent "p" [leaf "x"]; parent "x" [leaf "y"]] in
  let once := updateParentCheckStates nodes {[ "x" ]} in
  "p" ∈ once ∧ "p" ∉ updateParentCheckStates nodes once.
Proof. split; compute_done. Qed.

(** C10. Global reconciliation changes the membership of parent ids only:
    an id whose membership differs after [updateParentCheckStates] is the
    id of a node with children, and, node ids being unique, every leaf of
    the tree (no child array, or an empty one) keeps its membership. *)
Theorem updateParentCheckStates_leaf_unchanged nodes checkedSet :
  uniqueIds nodes →
  (∀ x, ¬ (x ∈ updateParentCheckStates nodes checkedSet ↔ x ∈ checkedSet) →
        ∃ p, p ∈ allNodes nodes ∧ hasChildren p = true ∧ id p = x)
  ∧ (∀ leafNode, leafNode ∈ allNodes nodes → hasChildren leafNode = false →
        (id leafNode ∈ updateParentCheckStates nodes checkedSet
         ↔ id leafNode ∈ checkedSet)).
Proof.
  intros Hu. split.
  - intros x Hx. apply elem_of_parent_ids.
    destruct (decide (x ∈ (id <$> postorderParents nodes))) as [|Hn]; [done|].
    exfalso. apply Hx. apply updateParentCheckStates_frame.
    by rewrite <- elem_of_parent_ids.
  - intros n Hn Hl. by apply updateParentCheckStates_leaf_membership.
Qed.

Lemma updateParentCheckStates_leaf_unchanged_witness :
  "l3" ∈ updateParentCheckStates sampleNested {[ "l1"; "l3"; "mid" ]}
  ↔ "l3" ∈ ({[ "l1"; "l3"; "mid" ]} : gset string).
Proof.
  assert (Hu : uniqueIds sampleNested) by (unfold uniqueIds; compute_done).
  apply (proj2 (updateParentCheckStates_leaf_unchanged sampleNested
                  {[ "l1"; "l3"; "mid" ]} Hu) (leaf "l3")).
  - vm_compute. repeat constructor.
  - reflexivity.
Defined.

(** ** Checked-state operations *)

Lemma handleToggleChecked_commits context node checked' :
  handleToggleChecked context node = [OnCheckedNodesChange checked'] →
  ∃ s, checked' = updateParentCheckStates (data context) s.
Proof.
  unfold handleToggleChecked. destruct (checkedNodes context) as [c|]; [|done].
  destruct (onCheckedNodesChange context); simpl; [|done].
  intros [= <-]. eauto.
Qed.

Lemma handleLocalCheckboxChange_commits context node newValues checked' :
  handleLocalCheckboxChange context node newValues = [OnCheckedNodesChange checked'] →
  ∃ s, checked' = updateParentCheckStates (data context) s.
Proof.
  unfold handleLocalCheckboxChange. destruct (checkedNodes context) as [c|]; [|done].
  destruct (onCheckedNodesChange context); simpl; [|done].
  intros [= <-]. eauto.
Qed.

(** Both operations commit whenever the callback and the checked set are
    supplied: every checked set has a successor under each of them. *)
Lemma checkedTransition_total context node newValues checked :
  checkedNodes context = Some checked → onCheckedNodesChange context = true →
  (∃ checked', handleToggleChecked context node = [OnCheckedNodesChange checked'])
  ∧ (∃ checked', handleLocalCheckboxChange context node newValues
                 = [OnCheckedNodesChange checked']).
Proof.
  intros Hc Hcb. unfold handleToggleChecked, handleLocalCheckboxChange.
  rewrite Hc, Hcb. simpl. eauto.
Qed.

(** C1. Propagation consistency: on a tree whose node ids are unique,
    every checked set committed by a sequence of one or more checked-state
    operations ([handleToggleChecked], [handleLocalCheckboxChange]),
    from any initial checked set, holds a parent exactly when it holds
    all the leaf descendants of that parent. *)
Theorem checked_operations_consistent nodes checked0 checked :
  uniqueIds nodes →
  tc (checkedTransition nodes) checked0 checked →
  PropagationConsistent nodes checked.
Proof.
  intros Hu Hreach.
  assert (Hlast : ∀ c c', checkedTransition nodes c c' →
            PropagationConsistent nodes c').
  { intros c c' [context node Hd _ Hcall | context node newValues Hd _ Hcall].
    - apply handleToggleChecked_commits in Hcall as [s ->]. rewrite Hd.
      by apply updateParentCheckStates_consistent.
    - apply handleLocalCheckboxChange_commits in Hcall as [s ->]. rewrite Hd.
      by apply updateParentCheckStates_consistent. }
  induction Hreach as [c c' Hstep | c c' c'' _ _ IH]; [by eapply Hlast | exact IH].
Qed.

Lemma checked_operations_consistent_witness :
  PropagationConsistent sampleFlat {[ "leafA" ]}.
Proof.
  apply (checked_operations_consistent sampleFlat {[ "root" ]} {[ "leafA" ]}).
  - unfold uniqueIds. compute_done.
  - apply tc_once.
    apply (transition_toggle sampleFlat {[ "root" ]} {[ "leafA" ]}
             (bulkContext sampleFlat {[ "root" ]}) (leaf "leafA")).
    + reflexivity.
    + vm_compute. reflexivity.
    + vm_compute. reflexivity.
Defined.

(** The checked-state operations read the tree, never the expanded set:
    what they commit is the same whatever is collapsed. *)
Lemma checked_operations_ignore_expansion props st st' node newValues :
  handleToggleChecked (Tree_context props st) node
  = handleToggleChecked (Tree_context props st') node
  ∧ handleLocalCheckboxChange (Tree_context props st) node newValues
    = handleLocalCheckboxChange (Tree_context props st') node newValues.
Proof. done. Qed.

(** On [root{leafA, leafB}]: toggling [root] checks everything; toggling
    [leafA] alone leaves [root] out; the group of [root] reporting
    [leafA] while [root] is collapsed commits the same. *)
Example toggle_scenarios :
  handleToggleChecked (bulkContext sampleFlat ∅)
    (parent "root" [leaf "leafA"; leaf "leafB"])
  = [OnCheckedNodesChange {[ "root"; "leafA"; "leafB" ]}]
  ∧ handleToggleChecked (bulkContext sampleFlat ∅) (leaf "leafA")
    = [OnCheckedNodesChange {[ "leafA" ]}]
  ∧ handleLocalCheckboxChange (bulkContext sampleFlat ∅)
      (parent "root" [leaf "leafA"; leaf "leafB"]) ["leafA"]
    = [OnCheckedNodesChange {[ "leafA" ]}].
Proof. repeat split; vm_compute; reflexivity. Qed.

(** ** The visible-id computation *)

#[local] Arguments allExpanded : simpl never.
#[local] Arguments markDisabled : simpl never.
#[local] Arguments collectVisibleIds : simpl never.
#[local] Arguments nodesWithAncestors : simpl never.

Lemma nodesWithAncestors_cons ancestors node rest :
  nodesWithAncestors ancestors (node :: rest)
  = (ancestors, node)
    :: nodesWithAncestors (ancestors ++ [id node]) (childrenOrEmpty node)
    ++ nodesWithAncestors ancestors rest.
Proof. by destruct node as [i [l|] d]. Qed.

Lemma collectVisibleIds_cons expanded node rest acc :
  collectVisibleIds expanded (node :: rest) acc
  = collectVisibleIds expanded rest
      (let acc1 := (acc.1 ++ [id node],
                    if disabled node then <[ id node := true ]> acc.2 else acc.2) in
       if bool_decide (id node ∈ expanded)
       then collectVisibleIds expanded (childrenOrEmpty node) acc1
       else acc1).
Proof. destruct node as [i [l|] d]; simpl; [done|]. by case_bool_decide. Qed.

Lemma allExpanded_app expanded l1 l2 :
  allExpanded expanded (l1 ++ l2) = allExpanded expanded l1 && allExpanded expanded l2.
Proof. unfold allExpanded. apply forallb_app. Qed.

Lemma allExpanded_true expanded ancestors :
  allExpanded expanded ancestors = true ↔ ∀ a, a ∈ ancestors → a ∈ expanded.
Proof. apply everyChecked_true. Qed.

Lemma markDisabled_cons n nodes disabledMap :
  markDisabled (n :: nodes) disabledMap
  = markDisabled nodes (if disabled n then <[ id n := true ]> disabledMap else disabledMap).
Proof. done. Qed.

Lemma markDisabled_app l1 l2 disabledMap :
  markDisabled (l1 ++ l2) disabledMap = markDisabled l2 (markDisabled l1 disabledMap).
Proof. unfold markDisabled. apply fold_left_app. Qed.

(** Below a chain that is not fully expanded nothing is visible. *)
Lemma nodesWithAncestors_hidden expanded nodes ancestors :
  allExpanded expanded ancestors = false →
  filter (λ an, allExpanded expanded an.1 = true) (nodesWithAncestors ancestors nodes)
  = [].
Proof.
  revert ancestors.
  induction nodes as [|node rest IHc IHr] using forest_ind; intros anc Hanc; [done|].
  rewrite nodesWithAncestors_cons, filter_cons, filter_app.
  rewrite IHr by done. rewrite IHc by (by rewrite allExpanded_app, Hanc).
  rewrite decide_False; [done|]. simpl. congruence.
Qed.

(** [collectVisibleIds] pushes the ids of the visible nodes, in pre-order,
    and marks the disabled ones among them. *)
Lemma collectVisibleIds_spec expanded nodes ancestors acc :
  allExpanded expanded ancestors = true →
  collectVisibleIds expanded nodes acc
  = (acc.1 ++ (id <$> (snd <$> filter (λ an, allExpanded expanded an.1 = true)
                                (nodesWithAncestors ancestors nodes))),
     markDisabled (snd <$> filter (λ an, allExpanded expanded an.1 = true)
                             (nodesWithAncestors ancestors nodes)) acc.2).
Proof.
  revert ancestors acc.
  induction nodes as [|node rest IHc IHr] using forest_ind; intros anc acc Hanc.
  - unfold collectVisibleIds, nodesWithAncestors, markDisabled. simpl.
    rewrite app_nil_r. by destruct acc.
  - rewrite collectVisibleIds_cons, nodesWithAncestors_cons, filter_cons, filter_app.
    simpl. rewrite decide_True by done.
    rewrite (IHr anc) by done. simpl.
    case_bool_decide as Hexp.
    + rewrite (IHc (anc ++ [id node])); last first.
      { rewrite allExpanded_app, Hanc. unfold allExpanded. simpl.
        by rewrite bool_decide_true. }
      simpl. rewrite !fmap_app, <- !app_assoc. simpl.
      by rewrite markDisabled_cons, markDisabled_app.
    + rewrite (nodesWithAncestors_hidden expanded (childrenOrEmpty node)
                 (anc ++ [id node])); last first.
      { rewrite allExpanded_app, Hanc. unfold allExpanded. simpl.
        by rewrite bool_decide_false. }
      simpl. by rewrite <- app_assoc.
Qed.

Lemma lookup_markDisabled nodes disabledMap x :
  is_Some (markDisabled nodes disabledMap !! x)
  ↔ (∃ n, n ∈ nodes ∧ id n = x ∧ disabled n = true) ∨ is_Some (disabledMap !! x).
Proof.
  unfold markDisabled. revert disabledMap.
  induction nodes as [|n nodes IH]; intros m; simpl.
  - split; [by right | intros [(n & Hn & _)|?]; [by apply not_elem_of_nil in Hn | done]].
  - rewrite IH. split.
    + intros [(n' & Hn' & Hid & Hd)|Hm].
      * left. exists n'. split; [by apply list_elem_of_further | done].
      * destruct (disabled n) eqn:Hd; [|by right].
        destruct (decide (id n = x)) as [Heq|Hne].
        -- left. exists n. split; [apply list_elem_of_here | done].
        -- rewrite lookup_insert_ne in Hm by done. by right.
    + intros [(n' & Hn' & Hid & Hd)|Hm].
      * apply elem_of_cons in Hn' as [->|Hn'].
        -- right. rewrite Hd, <- Hid, lookup_insert_eq. eauto.
        -- left. by exists n'.
      * right. destruct (disabled n); [|done].
        destruct (decide (id n = x)) as [<-|Hne].
        -- rewrite lookup_insert_eq. eauto.
        -- by rewrite lookup_insert_ne.
Qed.

Lemma nodesWithAncestors_allNodes ancestors nodes :
  snd <$> nodesWithAncestors ancestors nodes = allNodes nodes.
Proof.
  revert ancestors.
  induction nodes as [|node rest IHc IHr] using forest_ind; intros anc; [done|].
  by rewrite nodesWithAncestors_cons, allNodes_cons, fmap_cons, fmap_app, IHc, IHr.
Qed.

Lemma Tree_visibleNodeIds props st :
  visibleNodeIds (Tree_context props st)
  = id <$> visibleNodes (Tree_expandedNodes props st) (props_data props).
Proof.
  unfold Tree_context, visibleNodes; simpl.
  by rewrite (collectVisibleIds_spec _ _ []).
Qed.

Lemma Tree_disabledNodesMap props st :
  disabledNodesMap (Tree_context props st)
  = markDisabled (visibleNodes (Tree_expandedNodes props st) (props_data props)) ∅.
Proof.
  unfold Tree_context, visibleNodes; simpl.
  by rewrite (collectVisibleIds_spec _ _ []).
Qed.

Lemma elem_of_visibleNodes expanded nodes node :
  node ∈ visibleNodes expanded nodes
  ↔ ∃ ancestors, (ancestors, node) ∈ nodesWithAncestors [] nodes
                 ∧ ∀ a, a ∈ ancestors → a ∈ expanded.
Proof.
  unfold visibleNodes. rewrite list_elem_of_fmap. split.
  - intros ([anc n] & -> & Hin). apply list_elem_of_filter in Hin as [Hvis Hin].
    exists anc. split; [done|]. by apply allExpanded_true.
  - intros (anc & Hin & Hall). exists (anc, node). split; [done|].
    apply list_elem_of_filter. split; [|done]. by apply allExpanded_true.
Qed.

(** *** The ancestor chains and the parent map *)

Lemma buildParentMap_cons node rest parentId parentMap :
  buildParentMap (node :: rest) parentId parentMap
  = buildParentMap rest parentId
      (buildParentMap (childrenOrEmpty node) (Some (id node))
         (match parentId with
          | Some p => if truthy parentId then <[ id node := p ]> parentMap else parentMap
          | None => parentMap
          end)).
Proof. by destruct node as [i [l|] d]. Qed.

Lemma getAllDescendantIds_children node rest :
  getAllDescendantIds (node :: rest)
  = id node :: getAllDescendantIds (childrenOrEmpty node) ++ getAllDescendantIds rest.
Proof. by rewrite !getAllDescendantIds_allNodes, allNodes_cons, fmap_cons, fmap_app. Qed.

Lemma nodesWithAncestors_ids ancestors nodes a n :
  (a, n) ∈ nodesWithAncestors ancestors nodes → id n ∈ getAllDescendantIds nodes.
Proof.
  intros Hin. rewrite getAllDescendantIds_allNodes, <- (nodesWithAncestors_allNodes ancestors).
  apply list_elem_of_fmap. exists n. split; [done|].
  apply list_elem_of_fmap. by exists (a, n).
Qed.

#[local] Arguments buildParentMap : simpl never.

(** [buildParentMap] records, for every node, the last id of its chain
    of ancestors, and touches no other key (ids unique and non-empty). *)
Lemma buildParentMap_spec nodes :
  ∀ ancestors parentMap,
    NoDup (getAllDescendantIds nodes) → "" ∉ getAllDescendantIds nodes →
    "" ∉ ancestors →
    (∀ a n, (a, n) ∈ nodesWithAncestors ancestors nodes →
       ("" ∉ a)
       ∧ buildParentMap nodes (last ancestors) parentMap !! id n
         = match last a with Some p => Some p | None => parentMap !! id n end)
    ∧ (∀ x, x ∉ getAllDescendantIds nodes →
         buildParentMap nodes (last ancestors) parentMap !! x = parentMap !! x).
Proof.
  induction nodes as [|node rest IHc IHr] using forest_ind;
    intros anc m Hnd Hne Hanc.
  - split; [intros a n Hin; by apply not_elem_of_nil in Hin | done].
  - rewrite getAllDescendantIds_children in Hnd, Hne.
    apply NoDup_cons in Hnd as [Hid Hnd]. apply NoDup_app in Hnd as (Hndc & Hdisj & Hndr).
    rewrite not_elem_of_cons, not_elem_of_app in Hne. destruct Hne as (Hne & Hnec & Hner).
    rewrite not_elem_of_app in Hid. destruct Hid as [Hidc Hidr].
    set (m1 := match last anc with
               | Some p => if truthy (last anc) then <[ id node := p ]> m else m
               | None => m
               end).
    assert (Hm1 : ∀ x, x ≠ id node → m1 !! x = m !! x).
    { intros x Hx. unfold m1. destruct (last anc); [|done].
      destruct (truthy _); [|done]. by rewrite lookup_insert_ne. }
    assert (Hanc' : "" ∉ anc ++ [id node]).
    { rewrite not_elem_of_app, list_elem_of_singleton. naive_solver. }
    destruct (IHc (anc ++ [id node]) m1 Hndc Hnec Hanc') as [IHc1 IHc2].
    rewrite last_snoc in IHc1, IHc2.
    destruct (IHr anc (buildParentMap (childrenOrEmpty node) (Some (id node)) m1)
                Hndr Hner Hanc) as [IHr1 IHr2].
    rewrite buildParentMap_cons. fold m1. split.
    + intros a n Hin. rewrite nodesWithAncestors_cons in Hin.
      apply elem_of_cons in Hin as [[= -> ->]|Hin]; [|apply elem_of_app in Hin as [Hin|Hin]].
      * split; [done|]. rewrite IHr2, IHc2 by done. unfold m1.
        destruct (last anc) as [p|] eqn:Hp; [|done].
        assert (p ≠ "").
        { intros ->. apply Hanc. apply last_Some in Hp as [l' ->].
          apply elem_of_app. right. by apply list_elem_of_singleton. }
        simpl. rewrite bool_decide_false by done. simpl. by rewrite lookup_insert_eq.
      * destruct (IHc1 a n Hin) as [Ha Hl]. split; [done|].
        pose proof (nodesWithAncestors_ids _ _ _ _ Hin) as Hidn.
        rewrite IHr2 by (intros ?; by eapply Hdisj). rewrite Hl.
        destruct (last a); [done|]. apply Hm1. intros Heq. by rewrite Heq in Hidn.
      * destruct (IHr1 a n Hin) as [Ha Hl]. split; [done|].
        pose proof (nodesWithAncestors_ids _ _ _ _ Hin) as Hidn.
        rewrite Hl. destruct (last a); [done|].
        rewrite IHc2 by (intros ?; by eapply Hdisj). apply Hm1.
        intros Heq. by rewrite Heq in Hidn.
    + intros x Hx. rewrite getAllDescendantIds_children, not_elem_of_cons,
        not_elem_of_app in Hx. destruct Hx as (Hx & Hxc & Hxr).
      rewrite IHr2, IHc2 by done. by apply Hm1.
Qed.

(** On a tree with unique, non-empty ids the parent map sends every node
    to the last id of its chain of ancestors, and has no entry for a
    root: the chains are those of the parent map. *)
Lemma parentNodeMap_last_ancestor props st ancestors node :
  uniqueIds (props_data props) → "" ∉ getAllDescendantIds (props_data props) →
  (ancestors, node) ∈ nodesWithAncestors [] (props_data props) →
  parentNodeMap (Tree_context props st) !! id node = last ancestors.
Proof.
  intros Hu Hne Hin. unfold Tree_context; simpl.
  destruct (buildParentMap_spec (props_data props) [] ∅ Hu Hne) as [H _].
  { apply not_elem_of_nil. }
  destruct (H _ _ Hin) as [_ Heq]. simpl in Heq. rewrite Heq.
  by destruct (last ancestors).
Qed.

(** C4. Visibility correctness: the visible-id sequence lists, in
    depth-first pre-order, the ids of the nodes all of whose ancestors
    are expanded.  It is the pre-order listing of the tree restricted to
    those nodes (roots, with no ancestor, are always in), and, node ids
    being unique, the id of a node of the tree appears in it if and only
    if every ancestor of the node is a member of the expanded set. *)
Theorem visibleNodeIds_correct props st :
  let context := Tree_context props st in
  visibleNodeIds context
  = (λ an, id an.2) <$> filter (λ an, allExpanded (expandedNodes context) an.1 = true)
                          (nodesWithAncestors [] (props_data props))
  ∧ getAllDescendantIds (props_data props)
    = (λ an, id an.2) <$> nodesWithAncestors [] (props_data props)
  ∧ visibleNodeIds context `sublist_of` getAllDescendantIds (props_data props)
  ∧ (∀ root, root ∈ props_data props → id root ∈ visibleNodeIds context)
  ∧ (uniqueIds (props_data props) →
     ∀ ancestors node, (ancestors, node) ∈ nodesWithAncestors [] (props_data props) →
       (id node ∈ visibleNodeIds context
        ↔ ∀ a, a ∈ ancestors → a ∈ expandedNodes context)).
Proof.
  intros context.
  assert (Hvis : visibleNodeIds context
            = (λ an, id an.2) <$> filter (λ an, allExpanded (expandedNodes context) an.1 = true)
                                    (nodesWithAncestors [] (props_data props))).
  { unfold context. rewrite Tree_visibleNodeIds. unfold visibleNodes.
    by rewrite <- list_fmap_compose. }
  assert (Hall : getAllDescendantIds (props_data props)
            = (λ an, id an.2) <$> nodesWithAncestors [] (props_data props)).
  { rewrite getAllDescendantIds_allNodes, <- (nodesWithAncestors_allNodes []).
    by rewrite <- list_fmap_compose. }
  split; [done|]. split; [done|]. split; [|split].
  - rewrite Hvis, Hall. apply fmap_sublist, sublist_filter.
  - intros root Hroot. rewrite Hvis. apply list_elem_of_fmap.
    exists ([], root). split; [done|]. apply list_elem_of_filter. split; [done|].
    unfold nodesWithAncestors. apply elem_of_flat_map. exists root. split; [done|].
    destruct root as [i [l|] d]; apply list_elem_of_here.
  - intros Hu anc node Hin. rewrite Hvis. split.
    + intros Hid. apply list_elem_of_fmap in Hid as ([anc' n'] & Hid & Hin').
      apply list_elem_of_filter in Hin' as [Hvis' Hin']. simpl in *.
      assert (Heq : (anc', n') = (anc, node)).
      { apply (NoDup_fmap_inj_on (λ an, id an.2)
                 (nodesWithAncestors [] (props_data props))); try done.
        by rewrite <- Hall. }
      injection Heq as -> ->. by apply allExpanded_true.
    + intros Hexp. apply list_elem_of_fmap. exists (anc, node). split; [done|].
      apply list_elem_of_filter. split; [|done]. by apply allExpanded_true.
Qed.

Lemma visibleNodeIds_correct_witness :
  "l1" ∈ visibleNodeIds (Tree_context (propsOf sampleNested)
                           (stateOf {[ "root"; "mid" ]} None))
  ↔ ∀ a, a ∈ ["root"; "mid"] → a ∈ ({[ "root"; "mid" ]} : gset string).
Proof.
  apply (proj2 (proj2 (proj2 (proj2
           (visibleNodeIds_correct (propsOf sampleNested)
              (stateOf {[ "root"; "mid" ]} None)))))
           ltac:(unfold uniqueIds; compute_done)
           ["root"; "mid"] (leaf "l1")).
  vm_compute. repeat constructor.
Defined.

(** The visible slice of the sample tree: collapsing [mid] hides its
    leaves whatever else is expanded. *)
Example visibleNodeIds_sampleNested :
  visibleNodeIds (Tree_context (propsOf sampleNested) (stateOf {[ "root" ]} None))
  = ["root"; "mid"; "l3"].
Proof. reflexivity. Qed.

(** C3 (as stated) fails: with [a] collapsed, its disabled child [b] is
    in no entry of the disabled map. *)
Lemma disabledNodesMap_misses_collapsed : ¬ DisabledMapCoversTree.
Proof.
  intros H.
  specialize (H (propsOf sampleDisabledChild) (stateOf ∅ None) (mkNode "b" None true)).
  assert (Hb : mkNode "b" None true ∈ allNodes sampleDisabledChild).
  { vm_compute. repeat constructor. }
  specialize (H Hb eq_refl). revert H. vm_compute. by intros [? ?].
Qed.

(** C3 (amended). The disabled map computed along with the visible ids
    holds exactly the ids of the visible nodes whose [disabled] flag is
    set: disabled nodes inside collapsed subtrees are not in it. *)
Theorem disabledNodesMap_visible props st x :
  is_Some (disabledNodesMap (Tree_context props st) !! x)
  ↔ ∃ node, node ∈ visibleNodes (Tree_expandedNodes props st) (props_data props)
            ∧ id node = x ∧ disabled node = true.
Proof.
  rewrite Tree_disabledNodesMap, lookup_markDisabled, lookup_empty.
  split; [intros [?|[? ?]]; done | by left].
Qed.

(** ** Keyboard navigation *)

Section Navigation.

Variable context : TreeContextValue.
Local Open Scope nat_scope.

Lemma scanForward_Some fuel i x :
  scanForward context fuel i = Some x →
  disabledNodesMap context !! x = None ∧ x ∈ focusableNodes context
  ∧ ∃ j, i ≤ j ∧ visibleNodeIds context !! j = Some x.
Proof.
  revert i. induction fuel as [|fuel IH]; intros i; simpl; [done|].
  destruct (visibleNodeIds context !! i) as [y|] eqn:Hy; [|done].
  assert (Hrec : scanForward context fuel (S i) = Some x →
            disabledNodesMap context !! x = None ∧ x ∈ focusableNodes context
            ∧ ∃ j, i ≤ j ∧ visibleNodeIds context !! j = Some x).
  { intros H. apply IH in H as (? & ? & j & ? & ?).
    repeat split; try done. exists j. split; [lia | done]. }
  case_bool_decide as Hd; [done|].
  case_bool_decide as Hr; [|done].
  intros [= <-]. split; [|split; [done|]].
  - destruct (disabledNodesMap context !! y) eqn:E; [|done].
    exfalso. apply Hd. eauto.
  - exists i. split; [lia | done].
Qed.

Lemma scanForward_None fuel i :
  (∀ j x, i ≤ j → visibleNodeIds context !! j = Some x →
          is_Some (disabledNodesMap context !! x)) →
  scanForward context fuel i = None.
Proof.
  revert i. induction fuel as [|fuel IH]; intros i Hall; simpl; [done|].
  destruct (visibleNodeIds context !! i) as [y|] eqn:Hy; [|done].
  rewrite bool_decide_true by (by apply (Hall i)).
  apply IH. intros j x Hj. apply Hall. lia.
Qed.

Lemma scanBackward_Some count x :
  scanBackward context count = Some x →
  disabledNodesMap context !! x = None ∧ x ∈ focusableNodes context
  ∧ ∃ j, j < count ∧ visibleNodeIds context !! j = Some x.
Proof.
  induction count as [|k IH]; simpl; [done|].
  assert (Hrec : scanBackward context k = Some x →
            disabledNodesMap context !! x = None ∧ x ∈ focusableNodes context
            ∧ ∃ j, j < S k ∧ visibleNodeIds context !! j = Some x).
  { intros H. apply IH in H as (? & ? & j & ? & ?).
    repeat split; try done. exists j. split; [lia | done]. }
  destruct (visibleNodeIds context !! k) as [y|] eqn:Hy; [|done].
  case_bool_decide as Hd; [done|].
  case_bool_decide as Hr; [|done].
  intros [= <-]. split; [|split; [done|]].
  - destruct (disabledNodesMap context !! y) eqn:E; [|done].
    exfalso. apply Hd. eauto.
  - exists k. split; [lia | done].
Qed.

Lemma scanBackward_None count :
  (∀ j x, j < count → visibleNodeIds context !! j = Some x →
          is_Some (disabledNodesMap context !! x)) →
  scanBackward context count = None.
Proof.
  induction count as [|k IH]; intros Hall; simpl; [done|].
  assert (Hk : scanBackward context k = None).
  { apply IH. intros j x Hj. apply Hall. lia. }
  destruct (visibleNodeIds context !! k) as [y|] eqn:Hy; [|done].
  by rewrite bool_decide_true by (by apply (Hall k); [lia|]).
Qed.

(** The forward scan is the search of the first eligible id from the
    start index on; the length of the array is fuel enough. *)
Lemma scanForward_find fuel i :
  length (visibleNodeIds context) ≤ fuel + i →
  scanForward context fuel i
  = head (filter (λ x, eligible context x = true) (drop i (visibleNodeIds context))).
Proof.
  revert i. induction fuel as [|fuel IH]; intros i Hlen; simpl.
  - by rewrite drop_ge by lia.
  - destruct (visibleNodeIds context !! i) as [y|] eqn:Hy.
    + rewrite (drop_S _ y i) by done. rewrite filter_cons, IH by lia.
      case_decide as He; unfold eligible in He;
        destruct (bool_decide (is_Some (disabledNodesMap context !! y)));
        destruct (bool_decide (y ∈ focusableNodes context)); simpl in *; done.
    + apply lookup_ge_None in Hy. by rewrite drop_ge by lia.
Qed.

(** The backward scan is the search of the last eligible id among the
    first [count] ones. *)
Lemma scanBackward_find count :
  count ≤ length (visibleNodeIds context) →
  scanBackward context count
  = head (filter (λ x, eligible context x = true)
            (reverse (take count (visibleNodeIds context)))).
Proof.
  induction count as [|k IH]; intros Hlen; simpl; [done|].
  destruct (visibleNodeIds context !! k) as [y|] eqn:Hy.
  - rewrite (take_S_r _ _ y) by done. rewrite reverse_snoc, filter_cons, IH by lia.
    case_decide as He; unfold eligible in He;
      destruct (bool_decide (is_Some (disabledNodesMap context !! y)));
      destruct (bool_decide (y ∈ focusableNodes context)); simpl in *; done.
  - apply lookup_ge_None in Hy. lia.
Qed.

Lemma indexOf_ge l x : (-1 ≤ indexOf l x)%Z.
Proof.
  induction l as [|y l IH]; simpl; [done|].
  case_bool_decide; [done|]. destruct (Z.ltb_spec (indexOf l x) 0); lia.
Qed.

Lemma indexOf_lt l x : (indexOf l x < Z.of_nat (length l))%Z.
Proof.
  induction l as [|y l IH]; simpl; [done|].
  case_bool_decide; [lia|]. destruct (Z.ltb_spec (indexOf l x) 0); lia.
Qed.

Lemma focusFound_calls found x :
  Focus x ∈ focusFound found ∨ SetLastFocusedNodeId (Some x) ∈ focusFound found →
  found = Some x.
Proof.
  destruct found as [y|]; simpl.
  - intros [H|H]; apply elem_of_cons in H as [H|H]; try (by injection H as ->);
      try discriminate H; apply list_elem_of_singleton in H;
      try discriminate H; by injection H as ->.
  - intros [H|H]; by apply not_elem_of_nil in H.
Qed.

End Navigation.

(** C7. Disabled skip: the navigation commands (ArrowDown, ArrowUp, Home,
    End) only ever move the focus to a visible id that is not in the
    disabled map, and they make no call at all, leaving the focus state
    as it was, when every visible id in their scan direction is in the
    disabled map. *)
Theorem navigation_skips_disabled context node key :
  isNavigationKey key = true →
  (∀ x, Focus x ∈ handleKeyDown context node key
        ∨ SetLastFocusedNodeId (Some x) ∈ handleKeyDown context node key →
        disabledNodesMap context !! x = None ∧ x ∈ visibleNodeIds context)
  ∧ ((∀ j x, inScanDirection key (indexOf (visibleNodeIds context) (id node)) j →
             visibleNodeIds context !! j = Some x →
             is_Some (disabledNodesMap context !! x)) →
     handleKeyDown context node key = []).
Proof.
  intros Hkey. unfold handleKeyDown.
  destruct (isDisabled node).
  { split; [intros x [H|H]; by apply not_elem_of_nil in H | done]. }
  pose proof (indexOf_ge (visibleNodeIds context) (id node)) as Hidx.
  destruct key; try discriminate Hkey; simpl; split.
  - intros x Hx. apply focusFound_calls in Hx.
    apply scanForward_Some in Hx as (? & _ & j & _ & Hj).
    split; [done|]. by eapply list_elem_of_lookup_2.
  - intros Hall. rewrite scanForward_None; [done|].
    intros j x Hj. apply Hall. lia.
  - intros x Hx. apply focusFound_calls in Hx.
    apply scanBackward_Some in Hx as (? & _ & j & _ & Hj).
    split; [done|]. by eapply list_elem_of_lookup_2.
  - intros Hall. rewrite scanBackward_None; [done|].
    intros j x Hj. apply Hall. lia.
  - intros x Hx. apply focusFound_calls in Hx.
    apply scanForward_Some in Hx as (? & _ & j & _ & Hj).
    split; [done|]. by eapply list_elem_of_lookup_2.
  - intros Hall. rewrite scanForward_None; [done|].
    intros j x Hj. by apply Hall.
  - intros x Hx. apply focusFound_calls in Hx.
    apply scanBackward_Some in Hx as (? & _ & j & _ & Hj).
    split; [done|]. by eapply list_elem_of_lookup_2.
  - intros Hall. rewrite scanBackward_None; [done|].
    intros j x Hj. by apply Hall.
Qed.

Lemma navigation_skips_disabled_witness :
  disabledNodesMap sampleNavContext !! "c" = None
  ∧ "c" ∈ visibleNodeIds sampleNavContext.
Proof.
  apply (proj1 (navigation_skips_disabled sampleNavContext (leaf "a") Key_ArrowDown
                  eq_refl) "c").
  left. vm_compute. constructor.
Defined.

(** Move-next from [a] skips the disabled [b] and lands on [c]; from [c]
    only the disabled [d] is left and nothing happens. *)
Example arrowDown_skips :
  handleKeyDown sampleNavContext (leaf "a") Key_ArrowDown
  = [Focus "c"; SetLastFocusedNodeId (Some "c")]
  ∧ handleKeyDown sampleNavContext (leaf "c") Key_ArrowDown = []
  ∧ handleKeyDown sampleNavContext (leaf "c") Key_End
    = [Focus "c"; SetLastFocusedNodeId (Some "c")]
  ∧ handleKeyDown sampleNavContext (leaf "a") Key_ArrowUp = [].
Proof. repeat split; vm_compute; reflexivity. Qed.

(** The commands of an enabled node are searches: for the nearest
    eligible id after the current one, the first and the last eligible
    id. *)
Lemma navigation_targets context node :
  isDisabled node = false →
  let currentIndex := indexOf (visibleNodeIds context) (id node) in
  let eligibleIds := filter (λ x, eligible context x = true) in
  handleKeyDown context node Key_ArrowDown
  = focusFound (head (eligibleIds
                        (drop (Z.to_nat (currentIndex + 1)) (visibleNodeIds context))))
  ∧ handleKeyDown context node Key_ArrowUp
    = focusFound (head (eligibleIds
                          (reverse (take (Z.to_nat currentIndex)
                                      (visibleNodeIds context)))))
  ∧ handleKeyDown context node Key_Home
    = focusFound (head (eligibleIds (visibleNodeIds context)))
  ∧ handleKeyDown context node Key_End
    = focusFound (head (eligibleIds (reverse (visibleNodeIds context)))).
Proof.
  intros Hd. unfold handleKeyDown. rewrite Hd. simpl.
  pose proof (indexOf_lt (visibleNodeIds context) (id node)).
  rewrite !scanForward_find by lia. rewrite !scanBackward_find by lia.
  rewrite firstn_all.
  replace (indexOf (visibleNodeIds context) (id node) - 1 + 1)%Z
    with (indexOf (visibleNodeIds context) (id node)) by lia.
  done.
Qed.

(** ** The two propagation policies *)

(** C5. The two implementations of [handleLocalCheckboxChange] are not
    the same function.  On the tree [root{mid{l1, l2}, l3}] with [l1] and
    [l3] checked, the group of [mid] reporting [l1; l2]: the global
    reconciliation commits a set that holds [root], the local policy one
    that does not. *)
Theorem propagation_policies_differ :
  ∃ (nodes : list TreeNode) (checked : gset string) (node : TreeNode)
    (newValues : list string) (global local : gset string),
    handleLocalCheckboxChange (bulkContext nodes checked) node newValues
      = [OnCheckedNodesChange global]
    ∧ LocalPolicy.handleLocalCheckboxChange (localPolicyContext checked) node newValues
      = [OnCheckedNodesChange local]
    ∧ checkedNodes (bulkContext nodes checked) = Some checked
    ∧ node ∈ allNodes nodes
    ∧ global ≠ local.
Proof.
  exists sampleNested, {[ "l1"; "l3" ]}, (parent "mid" [leaf "l1"; leaf "l2"]),
    ["l1"; "l2"], {[ "l1"; "l2"; "l3"; "mid"; "root" ]}, {[ "l1"; "l2"; "l3"; "mid" ]}.
  split; [by vm_compute|]. split; [by vm_compute|].
  split; [by vm_compute|]. split; [vm_compute; repeat constructor|].
  intros Heq.
  assert (Hin : "root" ∈ ({[ "l1"; "l2"; "l3"; "mid"; "root" ]} : gset string))
    by set_solver.
  rewrite Heq in Hin. set_solver.
Qed.

(** What each policy commits on that input. *)
Example propagation_policies_sample :
  handleLocalCheckboxChange (bulkContext sampleNested {[ "l1"; "l3" ]})
    (parent "mid" [leaf "l1"; leaf "l2"]) ["l1"; "l2"]
  = [OnCheckedNodesChange {[ "l1"; "l2"; "l3"; "mid"; "root" ]}]
  ∧ LocalPolicy.handleLocalCheckboxChange (localPolicyContext {[ "l1"; "l3" ]})
      (parent "mid" [leaf "l1"; leaf "l2"]) ["l1"; "l2"]
    = [OnCheckedNodesChange {[ "l1"; "l2"; "l3"; "mid" ]}].
Proof. split; vm_compute; reflexivity. Qed.

(** ** Primary activation in bulk mode *)

Lemma elem_of_flipped x y (s : gset string) :
  y ∈ flipped x s ↔ (y = x ∧ x ∉ s) ∨ (y ≠ x ∧ y ∈ s).
Proof.
  unfold flipped. case_bool_decide; destruct (decide (y = x)) as [->|]; set_solver.
Qed.

Lemma handleToggleNode_flips props expanded nodeId :
  handleToggleNode props expanded nodeId = [OnExpandedChange (flipped nodeId expanded)]
  ∨ handleToggleNode props expanded nodeId = [SetInternalExpanded (flipped nodeId expanded)].
Proof.
  unfold handleToggleNode, flipped.
  destruct (bool_decide (is_Some (props_expanded props)) && props_onExpandedChange props);
    [by left | by right].
Qed.

Lemma handleToggleChecked_leaf context node checked :
  enableBulkActions context = true → hasChildren node = false →
  checkedNodes context = Some checked → onCheckedNodesChange context = true →
  handleToggleChecked context node
  = [OnCheckedNodesChange
       (updateParentCheckStates (data context) (flipped (id node) checked))].
Proof.
  intros Hb Hl Hc Hcb. unfold handleToggleChecked, isChecked, flipped.
  rewrite Hc, Hcb, Hb, Hl. simpl. by case_bool_decide.
Qed.

(** C6. In bulk-checked mode, on a node that is not disabled: the
    primary activation (Enter, or a click on the row) of a parent hands
    over the expanded set with the parent's membership flipped and makes
    no call on the checked set; the primary activation of a leaf, when
    the checked set and its callback are supplied, hands over the checked
    set with the leaf's membership flipped and the parents reconciled,
    and makes no call on the expanded set.  On a tree with unique ids the
    leaf's membership in the committed set is the opposite of what it
    was. *)
Theorem bulk_primary_activate props st node :
  props_enableBulkActions props = true → disabled node = false →
  (hasChildren node = true →
   ∀ calls, calls = handleKeyDown (Tree_context props st) node Key_Enter
            ∨ calls = bulkParentRow_onClick (Tree_context props st) node →
     (calls = [OnExpandedChange (flipped (id node) (Tree_expandedNodes props st))]
      ∨ calls = [SetInternalExpanded (flipped (id node) (Tree_expandedNodes props st))])
     ∧ ¬ changesChecked calls)
  ∧ (hasChildren node = false →
     ∀ checked, checkedNodes (Tree_context props st) = Some checked →
                props_onCheckedNodesChange props = true →
     ∀ calls, calls = handleKeyDown (Tree_context props st) node Key_Enter
              ∨ calls = handleClick (Tree_context props st) node →
       calls = [OnCheckedNodesChange
                  (updateParentCheckStates (props_data props)
                     (flipped (id node) checked))]
       ∧ ¬ changesExpanded calls
       ∧ (uniqueIds (props_data props) → node ∈ allNodes (props_data props) →
          (id node ∈ updateParentCheckStates (props_data props)
                       (flipped (id node) checked)
           ↔ id node ∉ checked))).
Proof.
  intros Hbulk Hen. split.
  - intros Hp calls Hcalls.
    assert (Hc : calls = handleToggleNode props (Tree_expandedNodes props st) (id node)).
    { destruct Hcalls as [-> | ->].
      - unfold handleKeyDown, isDisabled. rewrite Hen. simpl. by rewrite Hbulk, Hp.
      - unfold bulkParentRow_onClick, isDisabled. by rewrite Hen. }
    rewrite Hc.
    destruct (handleToggleNode_flips props (Tree_expandedNodes props st) (id node))
      as [-> | ->].
    + split; [by left|]. intros [c Hin]. by apply list_elem_of_singleton in Hin.
    + split; [by right|]. intros [c Hin]. by apply list_elem_of_singleton in Hin.
  - intros Hl checked Hchecked Hcb calls Hcalls.
    assert (Hc : calls = handleToggleChecked (Tree_context props st) node).
    { destruct Hcalls as [-> | ->].
      - unfold handleKeyDown, isDisabled. rewrite Hen. simpl. by rewrite Hbulk, Hl.
      - unfold handleClick, isDisabled. rewrite Hen. simpl. by rewrite Hbulk. }
    rewrite Hc, (handleToggleChecked_leaf _ _ checked) by done. simpl.
    split; [done|]. split.
    + intros [e [Hin|Hin]]; by apply list_elem_of_singleton in Hin.
    + intros Hu Hin.
      rewrite updateParentCheckStates_leaf_membership by done.
      rewrite elem_of_flipped. split.
      * intros [[_ ?]|[? _]]; done.
      * intros H. by left.
Qed.

Lemma bulk_primary_activate_witness :
  handleKeyDown (Tree_context (bulkProps sampleFlat {[ "leafB" ]}) (stateOf ∅ None))
    (leaf "leafA") Key_Enter
  = [OnCheckedNodesChange
       (updateParentCheckStates sampleFlat (flipped "leafA" {[ "leafB" ]}))]
  ∧ ¬ changesExpanded
        (handleKeyDown (Tree_context (bulkProps sampleFlat {[ "leafB" ]})
                          (stateOf ∅ None))
           (leaf "leafA") Key_Enter).
Proof.
  pose proof (proj2 (bulk_primary_activate (bulkProps sampleFlat {[ "leafB" ]})
                       (stateOf ∅ None) (leaf "leafA") eq_refl eq_refl)
                eq_refl {[ "leafB" ]}) as H.
  assert (Hc : checkedNodes (Tree_context (bulkProps sampleFlat {[ "leafB" ]})
                               (stateOf ∅ None)) = Some {[ "leafB" ]})
    by (vm_compute; reflexivity).
  destruct (H Hc eq_refl _ (or_introl eq_refl)) as (H1 & H2 & _).
  exact (conj H1 H2).
Defined.

(** Enter and click on the rows of [root{leafA, leafB}] in bulk mode. *)
Example bulk_enter_sample :
  let context := Tree_context (bulkProps sampleFlat {[ "leafB" ]}) (stateOf ∅ None) in
  handleKeyDown context (parent "root" [leaf "leafA"; leaf "leafB"]) Key_Enter
  = [SetInternalExpanded {[ "root" ]}]
  ∧ handleKeyDown context (leaf "leafA") Key_Enter
    = [OnCheckedNodesChange {[ "leafA"; "leafB"; "root" ]}]
  ∧ handleClick context (leaf "leafB") = [OnCheckedNodesChange ∅].
Proof. repeat split; vm_compute; reflexivity. Qed.

(** Space is the other activation key: in bulk mode it toggles the
    checked state of a parent as well, and does not expand it. *)
Example bulk_space_on_parent :
  handleKeyDown (Tree_context (bulkProps sampleFlat ∅) (stateOf ∅ None))
    (parent "root" [leaf "leafA"; leaf "leafB"]) Key_Space
  = [OnCheckedNodesChange {[ "root"; "leafA"; "leafB" ]}].
Proof. vm_compute. reflexivity. Qed.

(** ** Missing configuration and unknown ids *)

Lemma collectVisibleIds_flipped_unknown expanded x nodes acc :
  x ∉ getAllDescendantIds nodes →
  collectVisibleIds (flipped x expanded) nodes acc
  = collectVisibleIds expanded nodes acc.
Proof.
  revert acc. induction nodes as [|node rest IHc IHr] using forest_ind; intros acc Hx.
  - done.
  - rewrite getAllDescendantIds_cons, not_elem_of_cons, not_elem_of_app in Hx.
    destruct Hx as (Hne & Hc & Hr).
    rewrite !collectVisibleIds_cons. simpl. rewrite IHr by done. f_equal.
    assert (Hb : bool_decide (id node ∈ flipped x expanded)
                 = bool_decide (id node ∈ expanded)).
    { apply bool_decide_ext. rewrite elem_of_flipped. naive_solver. }
    rewrite Hb. destruct (bool_decide (id node ∈ expanded)); [|done].
    destruct (hasChildren node) eqn:Hh; [by apply IHc|].
    by rewrite (childrenOrEmpty_leaf _ Hh).
Qed.

(** C8 (as stated) fails: a toggle with no checked-state input returns
    normally, having made no call. *)
Lemma missing_checked_input_returns : ¬ MissingCheckedInputFailsFast.
Proof.
  intros H.
  destruct (H (Tree_context (propsOf sampleFlat) (stateOf ∅ None)) (leaf "leafA")
              (or_introl eq_refl)) as [message Hm].
  discriminate Hm.
Qed.

(** C8 (amended). The only configuration error is the missing context:
    an operation of a tree item mounted outside a [Tree] throws.  Inside
    a [Tree], a checkbox operation whose callback or checked-state input
    is not supplied returns at once without any call, and no operation
    throws, whatever the node.  Toggling the expansion of an id that is
    not in the tree hands over the expanded set with that id flipped and
    leaves the visible ids and the disabled map as they were. *)
Theorem configuration_errors props st :
  (∀ node newValues,
     mounted_handleToggleChecked None node
       = Threw "Tree components must be used within a Tree"
     ∧ mounted_handleLocalCheckboxChange None node newValues
       = Threw "Tree components must be used within a Tree")
  ∧ (∀ context node newValues,
       checkedNodes context = None ∨ onCheckedNodesChange context = false →
       mounted_handleToggleChecked (Some context) node = Returned []
       ∧ mounted_handleLocalCheckboxChange (Some context) node newValues = Returned [])
  ∧ (∀ context node newValues,
       (∃ calls, mounted_handleToggleChecked (Some context) node = Returned calls)
       ∧ (∃ calls, mounted_handleLocalCheckboxChange (Some context) node newValues
                   = Returned calls))
  ∧ (∀ nodeId, nodeId ∉ getAllDescendantIds (props_data props) →
       (handleToggleNode props (Tree_expandedNodes props st) nodeId
          = [OnExpandedChange (flipped nodeId (Tree_expandedNodes props st))]
        ∨ handleToggleNode props (Tree_expandedNodes props st) nodeId
          = [SetInternalExpanded (flipped nodeId (Tree_expandedNodes props st))])
       ∧ collectVisibleIds (flipped nodeId (Tree_expandedNodes props st))
           (props_data props) ([], ∅)
         = collectVisibleIds (Tree_expandedNodes props st) (props_data props) ([], ∅)).
Proof.
  split; [done|]. split; [|split].
  - intros context node newValues Hmiss.
    unfold mounted_handleToggleChecked, mounted_handleLocalCheckboxChange,
      handleToggleChecked, handleLocalCheckboxChange. simpl.
    destruct Hmiss as [-> | Hcb]; [done|].
    rewrite Hcb. by destruct (checkedNodes context).
  - intros context node newValues. split; eexists; reflexivity.
  - intros nodeId Hx. split; [apply handleToggleNode_flips|].
    by apply collectVisibleIds_flipped_unknown.
Qed.

Lemma configuration_errors_witness :
  mounted_handleToggleChecked
    (Some (Tree_context (propsOf sampleFlat) (stateOf ∅ None))) (leaf "leafA")
  = Returned []
  ∧ collectVisibleIds (flipped "ghost" ∅) sampleFlat ([], ∅)
    = collectVisibleIds ∅ sampleFlat ([], ∅).
Proof.
  pose proof (configuration_errors (propsOf sampleFlat) (stateOf ∅ None))
    as (_ & Hsilent & _ & Hghost).
  split.
  - apply (Hsilent _ (leaf "leafA") []). left. reflexivity.
  - apply (Hghost "ghost"). compute_done.
Defined.

(** ** Roving tabindex *)

Lemma render_cons context depth node rest :
  flat_map (TreeItemInternal_render context depth) (node :: rest)
  = viewOf context depth node
    :: (if bool_decide (id node ∈ expandedNodes context)
        then flat_map (TreeItemInternal_render context (S depth)) (childrenOrEmpty node)
        else [])
    ++ flat_map (TreeItemInternal_render context depth) rest.
Proof.
  destruct node as [i [[|c l]|] d]; simpl; try done; by case_bool_decide.
Qed.

#[local] Arguments TreeItemInternal_render : simpl never.
#[local] Arguments flat_map : simpl never.

(** The rendered rows are the rows of the visible nodes, in order. *)
Lemma render_visible context depth ancestors nodes :
  allExpanded (expandedNodes context) ancestors = true →
  view_id <$> flat_map (TreeItemInternal_render context depth) nodes
  = id <$> (snd <$> filter (λ an, allExpanded (expandedNodes context) an.1 = true)
                      (nodesWithAncestors ancestors nodes)).
Proof.
  revert depth ancestors.
  induction nodes as [|node rest IHc IHr] using forest_ind; intros depth anc Hanc.
  - done.
  - rewrite render_cons, nodesWithAncestors_cons, filter_cons, filter_app.
    rewrite decide_True by done.
    rewrite !fmap_cons, !fmap_app, (IHr depth anc) by done. simpl.
    case_bool_decide as Hexp.
    + rewrite (IHc (S depth) (anc ++ [id node])); [done|].
      rewrite allExpanded_app, Hanc. unfold allExpanded. simpl.
      by rewrite bool_decide_true.
    + rewrite (nodesWithAncestors_hidden _ (childrenOrEmpty node) (anc ++ [id node]));
        [done|].
      rewrite allExpanded_app, Hanc. unfold allExpanded. simpl.
      by rewrite bool_decide_false.
Qed.

Lemma Tree_render_ids props st :
  view_id <$> Tree_render props st = visibleNodeIds (Tree_context props st).
Proof.
  rewrite Tree_visibleNodeIds. unfold Tree_render, visibleNodes.
  by rewrite (render_visible _ 0 []).
Qed.

(** The tab index of a row depends on the id and the flag it shows. *)
Lemma render_tabIndex context depth nodes v :
  v ∈ flat_map (TreeItemInternal_render context depth) nodes →
  view_tabIndex v
  = tabIndex context (mkNode (view_id v) None (view_disabled v)).
Proof.
  revert depth.
  induction nodes as [|node rest IHc IHr] using forest_ind; intros depth Hv.
  - by apply not_elem_of_nil in Hv.
  - rewrite render_cons in Hv.
    apply elem_of_cons in Hv as [->|Hv]; [by destruct node|].
    apply elem_of_app in Hv as [Hv|Hv]; [|by eapply IHr].
    case_bool_decide; [by eapply IHc | by apply not_elem_of_nil in Hv].
Qed.

Lemma visibleNodeIds_NoDup props st :
  uniqueIds (props_data props) → NoDup (visibleNodeIds (Tree_context props st)).
Proof.
  unfold uniqueIds. intros Hu. rewrite Tree_visibleNodeIds.
  apply (sublist_NoDup _ _ Hu).
  rewrite getAllDescendantIds_allNodes, <- (nodesWithAncestors_allNodes []).
  unfold visibleNodes. apply fmap_sublist, fmap_sublist, sublist_filter.
Qed.

(** Rows with distinct ids, of which those in the tab order are the
    enabled ones with id [t]: at most one is in the tab order. *)
Lemma focusTargets_single (views : list TreeItemView) (t : string) :
  NoDup (view_id <$> views) →
  (∀ v, v ∈ views → (view_tabIndex v = 0%Z ↔ view_disabled v = false ∧ view_id v = t)) →
  (length (focusTargets views) ≤ 1)%nat
  ∧ (∀ v, v ∈ views → view_id v = t → view_disabled v = false →
          focusTargets views = [t])
  ∧ ((¬ ∃ v, v ∈ views ∧ view_id v = t ∧ view_disabled v = false) →
     focusTargets views = []).
Proof.
  unfold focusTargets.
  induction views as [|w views IH]; intros Hnd Htab.
  - split; [simpl; lia|]. split; [|done]. intros v Hv. by apply not_elem_of_nil in Hv.
  - rewrite fmap_cons in Hnd. apply NoDup_cons in Hnd as [Hw Hnd].
    destruct IH as (IH1 & IH2 & IH3); [done | |].
    { intros v Hv. apply Htab. by apply list_elem_of_further. }
    rewrite filter_cons.
    destruct (decide (view_tabIndex w = 0%Z)) as [Hw0|Hw0].
    + apply Htab in Hw0 as [Hwd Hwt]; [|apply list_elem_of_here].
      assert (Hrest : view_id <$> filter (λ v, view_tabIndex v = 0%Z) views = []).
      { apply IH3. intros (v & Hv & Hvt & _). apply Hw. rewrite Hwt, <- Hvt.
        by apply list_elem_of_fmap_2. }
      rewrite fmap_cons, Hrest, Hwt. split; [simpl; lia|]. split; [done|].
      intros Hn. exfalso. apply Hn. exists w. split; [apply list_elem_of_here | done].
    + split; [done|]. split.
      * intros v Hv Hvt Hvd. apply elem_of_cons in Hv as [->|Hv]; [|by eapply IH2].
        exfalso. apply Hw0. apply Htab; [apply list_elem_of_here | done].
      * intros Hn. apply IH3. intros (v & Hv & Hvt). apply Hn. exists v.
        split; [by apply list_elem_of_further | done].
Qed.

Lemma tabIndex_zero context i d :
  tabIndex context (mkNode i None d) = 0%Z
  ↔ d = false
    ∧ (lastFocusedNodeId context = Some i
       ∨ (truthy (lastFocusedNodeId context) = false
          ∧ head (visibleNodeIds context) = Some i)).
Proof.
  unfold tabIndex, isDisabled, isTabbable, isLastFocused, isFirstNode. simpl.
  destruct d; [naive_solver|].
  case_bool_decide as Hl; simpl; [naive_solver|].
  destruct (truthy (lastFocusedNodeId context)); simpl; [naive_solver|].
  case_bool_decide; naive_solver.
Qed.

(** The rows in the tab order are the enabled rows with one given id:
    the last-focused id when there is one, the id of the first visible
    row when no node has been focused yet. *)
Lemma Tree_render_target props st :
  lastFocused st ≠ Some "" →
  ∃ t, (∀ v, v ∈ Tree_render props st →
             (view_tabIndex v = 0%Z ↔ view_disabled v = false ∧ view_id v = t))
       ∧ (∀ f, lastFocused st = Some f → t = f)
       ∧ (lastFocused st = None →
          ∀ v rest, Tree_render props st = v :: rest → t = view_id v).
Proof.
  intros Hne.
  assert (Htab : ∀ v, v ∈ Tree_render props st →
            (view_tabIndex v = 0%Z
             ↔ view_disabled v = false
               ∧ (lastFocused st = Some (view_id v)
                  ∨ (truthy (lastFocused st) = false
                     ∧ head (view_id <$> Tree_render props st) = Some (view_id v))))).
  { intros v Hv. unfold Tree_render in Hv.
    rewrite (render_tabIndex _ _ _ _ Hv), tabIndex_zero.
    by rewrite <- Tree_render_ids. }
  destruct (lastFocused st) as [f|] eqn:Hf.
  - exists f. split; [|split; [by intros ? [= ->] | done]].
    intros v Hv. rewrite (Htab v Hv). simpl.
    assert (f ≠ "") by congruence. rewrite bool_decide_false by done. simpl.
    naive_solver.
  - destruct (Tree_render props st) as [|v0 rest] eqn:Hviews.
    + exists "". split; [|done]. intros v Hv. by apply not_elem_of_nil in Hv.
    + exists (view_id v0).
      split; [|split; [done | intros _ v rest' [= Hv _]; by rewrite Hv]].
      intros v Hv. rewrite (Htab v Hv). simpl.
      split; intros [Hd H]; (split; [done|]).
      * destruct H as [H|[_ H]]; [done|]. by injection H.
      * right. split; [done|]. by rewrite H.
Qed.

(** C2 (as stated) fails: with [root] collapsed and the hidden [leafA]
    last focused, the only visible row, [root], is enabled and is not in
    the tab order. *)
Lemma roving_no_fallback : ¬ RovingUniqueness.
Proof.
  intros H.
  specialize (H (propsOf sampleFlat) (stateOf ∅ (Some "leafA"))).
  assert (Hu : uniqueIds (props_data (propsOf sampleFlat)))
    by (unfold uniqueIds; compute_done).
  specialize (H Hu). vm_compute in H. discriminate H.
Qed.

(** C2 (amended). Roving tabindex, on a tree with unique ids: at most one
    visible row is in the tab order ([tabIndex] 0), and it is not
    disabled; it is the last-focused node when that node is visible and
    enabled, and, when no node has been focused yet, the first visible
    node when it is enabled. *)
Theorem roving_focus_target props st :
  uniqueIds (props_data props) → lastFocused st ≠ Some "" →
  (length (focusTargets (Tree_render props st)) ≤ 1)%nat
  ∧ (∀ v, v ∈ Tree_render props st → view_tabIndex v = 0%Z →
          view_disabled v = false)
  ∧ (∀ v, v ∈ Tree_render props st → lastFocused st = Some (view_id v) →
          view_disabled v = false →
          focusTargets (Tree_render props st) = [view_id v])
  ∧ (lastFocused st = None →
     ∀ v rest, Tree_render props st = v :: rest → view_disabled v = false →
       focusTargets (Tree_render props st) = [view_id v]).
Proof.
  intros Hu Hne.
  destruct (Tree_render_target props st Hne) as (t & Htab & Hfocused & Hfirst).
  assert (Hnd : NoDup (view_id <$> Tree_render props st)).
  { rewrite Tree_render_ids. by apply visibleNodeIds_NoDup. }
  destruct (focusTargets_single _ t Hnd Htab) as (Hone & Hthe & _).
  split; [done|]. split; [|split].
  - intros v Hv H0. by apply Htab in H0 as [? _].
  - intros v Hv Hf Hd. rewrite <- (Hfocused _ Hf). apply (Hthe v); try done.
    symmetry. by apply Hfocused.
  - intros Hnone v rest Hviews Hd. rewrite <- (Hfirst Hnone v rest Hviews).
    apply (Hthe v); [rewrite Hviews; apply list_elem_of_here | | done].
    symmetry. by apply (Hfirst Hnone v rest).
Qed.

Lemma roving_focus_target_witness :
  focusTargets (Tree_render (propsOf sampleFlat) (stateOf {[ "root" ]} (Some "leafB")))
  = ["leafB"].
Proof.
  pose proof (roving_focus_target (propsOf sampleFlat)
                (stateOf {[ "root" ]} (Some "leafB"))
                ltac:(unfold uniqueIds; compute_done) ltac:(discriminate))
    as (_ & _ & Hfocused & _).
  apply (Hfocused (viewOf (Tree_context (propsOf sampleFlat)
                             (stateOf {[ "root" ]} (Some "leafB"))) 1 (leaf "leafB"))).
  - vm_compute. repeat constructor.
  - reflexivity.
  - reflexivity.
Defined.

(** What the code does in the other states: a last-focused node that is
    hidden or disabled leaves the tab order empty, and so does a disabled
    first row when no node has been focused yet. *)
Lemma roving_empty_tab_order props st :
  uniqueIds (props_data props) → lastFocused st ≠ Some "" →
  (∀ f, lastFocused st = Some f →
        (¬ ∃ v, v ∈ Tree_render props st ∧ view_id v = f ∧ view_disabled v = false) →
        focusTargets (Tree_render props st) = [])
  ∧ (lastFocused st = None →
     ∀ v rest, Tree_render props st = v :: rest → view_disabled v = true →
       focusTargets (Tree_render props st) = []).
Proof.
  intros Hu Hne.
  destruct (Tree_render_target props st Hne) as (t & Htab & Hfocused & Hfirst).
  assert (Hnd : NoDup (view_id <$> Tree_render props st)).
  { rewrite Tree_render_ids. by apply visibleNodeIds_NoDup. }
  destruct (focusTargets_single _ t Hnd Htab) as (_ & _ & Hempty).
  split.
  - intros f Hf Hn. apply Hempty. by rewrite (Hfocused _ Hf).
  - intros Hnone v rest Hviews Hd. apply Hempty.
    intros (w & Hw & Hwt & Hwd).
    rewrite (Hfirst Hnone v rest Hviews) in Hwt.
    assert (w = v) as ->; [|congruence].
    apply (NoDup_fmap_inj_on view_id (Tree_render props st)); try done.
    rewrite Hviews. apply list_elem_of_here.
Qed.

(* ===================================================================== *)
(** * Further properties of the code *)
(* ===================================================================== *)

#[local] Arguments updateParentCheckStates : simpl never.

(** ** Leaves and descendants *)

Lemma hasChildren_nonempty node :
  hasChildren node = true → childrenOrEmpty node ≠ [].
Proof. by destruct node as [i [[|c l]|] d]. Qed.

Lemma getLeafNodeIds_nonempty nodes : nodes ≠ [] → getLeafNodeIds nodes ≠ [].
Proof.
  induction nodes as [|node rest IHc IHr] using forest_ind; [done|].
  intros _. rewrite getLeafNodeIds_cons.
  destruct (hasChildren node) eqn:Hc; [|done].
  intros Heq. apply app_eq_nil in Heq as [Heq _].
  by apply IHc in Heq; [|apply hasChildren_nonempty].
Qed.

Lemma getLeafNodeIds_sublist nodes :
  getLeafNodeIds nodes `sublist_of` getAllDescendantIds nodes.
Proof.
  induction nodes as [|node rest IHc IHr] using forest_ind; [done|].
  rewrite getLeafNodeIds_cons, getAllDescendantIds_cons.
  destruct (hasChildren node).
  - apply sublist_cons, sublist_app; done.
  - apply (sublist_app [id node] [id node]); [done|]. by simpl.
Qed.

Lemma elem_of_getAllDescendantIds nodes x :
  x ∈ getAllDescendantIds nodes ↔ ∃ n, n ∈ allNodes nodes ∧ id n = x.
Proof.
  rewrite getAllDescendantIds_allNodes, list_elem_of_fmap. naive_solver.
Qed.

(** The leaves below a node of a forest are leaves of the forest. *)
Lemma leafDescendants_forest nodes p y :
  p ∈ allNodes nodes → y ∈ leafDescendants p → y ∈ getLeafNodeIds nodes.
Proof.
  intros Hp Hy. apply elem_of_getLeafNodeIds in Hy as (n & Hn & Hl & Hid).
  apply elem_of_getLeafNodeIds. exists n. split; [|done].
  by apply (allNodes_children nodes p).
Qed.

(** X22. Every non-empty array of nodes has a leaf, and its leaf ids are
    a sub-sequence of all its ids: a node with children always has at
    least one leaf descendant, so the reconciliation never meets a parent
    without leaves. *)
Theorem leaf_ids_of_forest nodes :
  getLeafNodeIds nodes `sublist_of` getAllDescendantIds nodes
  ∧ (nodes ≠ [] → getLeafNodeIds nodes ≠ [])
  ∧ (∀ p, p ∈ allNodes nodes → hasChildren p = true →
          leafDescendants p ≠ []
          ∧ ∀ y, y ∈ leafDescendants p → y ∈ getAllDescendantIds nodes).
Proof.
  split; [apply getLeafNodeIds_sublist|]. split; [apply getLeafNodeIds_nonempty|].
  intros p Hp Hc. split.
  - by apply getLeafNodeIds_nonempty, hasChildren_nonempty.
  - intros y Hy. apply (sublist_subseteq _ _ (getLeafNodeIds_sublist nodes)).
    by apply (leafDescendants_forest nodes p).
Qed.

Lemma leaf_ids_of_forest_witness :
  getLeafNodeIds createTreeData ≠ [].
Proof.
  apply (proj1 (proj2 (leaf_ids_of_forest createTreeData))). discriminate.
Defined.

(** ** Reconciliation as a fixed point *)

Lemma parent_id_decision nodes x :
  (∃ p, p ∈ allNodes nodes ∧ hasChildren p = true ∧ id p = x)
  ∨ ¬ (∃ p, p ∈ allNodes nodes ∧ hasChildren p = true ∧ id p = x).
Proof.
  destruct (decide (x ∈ (id <$> postorderParents nodes))) as [H|H];
    rewrite elem_of_parent_ids in H; [by left | by right].
Qed.

Lemma updateParentCheckStates_of_consistent nodes checkedSet :
  uniqueIds nodes → PropagationConsistent nodes checkedSet →
  updateParentCheckStates nodes checkedSet = checkedSet.
Proof.
  intros Hu Hcons. apply set_eq. intros x.
  rewrite updateParentCheckStates_spec by done.
  destruct (parent_id_decision nodes x) as [(p & Hp & Hc & Hid)|Hn].
  - split.
    + intros [[Hn _]|(p' & Hp' & Hc' & Hid' & Hall)]; [exfalso; apply Hn; eauto|].
      subst x. rewrite <- Hid'. by apply Hcons.
    + intros Hx. right. exists p. repeat split; try done.
      subst x. by apply Hcons.
  - split; [intros [[_ ?]|(p & ? & ? & ? & _)]; [done | exfalso; apply Hn; eauto]|].
    intros Hx. by left.
Qed.

Lemma consistent_of_fixpoint nodes checkedSet :
  uniqueIds nodes → updateParentCheckStates nodes checkedSet = checkedSet →
  PropagationConsistent nodes checkedSet.
Proof. intros Hu <-. by apply updateParentCheckStates_consistent. Qed.

(** X1. On a tree with unique ids the checked sets the reconciliation
    leaves unchanged are exactly the consistent ones: those in which a
    parent is a member if and only if all its leaf descendants are. *)
Theorem updateParentCheckStates_fixpoint nodes checkedSet :
  uniqueIds nodes →
  (updateParentCheckStates nodes checkedSet = checkedSet
   ↔ PropagationConsistent nodes checkedSet).
Proof.
  intros Hu. split.
  - by apply consistent_of_fixpoint.
  - by apply updateParentCheckStates_of_consistent.
Qed.

Lemma updateParentCheckStates_fixpoint_witness :
  updateParentCheckStates sampleNested {[ "l1"; "l2"; "mid" ]}
  = {[ "l1"; "l2"; "mid" ]}
  ↔ PropagationConsistent sampleNested {[ "l1"; "l2"; "mid" ]}.
Proof.
  apply (updateParentCheckStates_fixpoint sampleNested).
  unfold uniqueIds. compute_done.
Defined.

(** ** Toggling a node *)

Lemma allDescendantIds_children node :
  allDescendantIds node = getAllDescendantIds (childrenOrEmpty node).
Proof.
  unfold allDescendantIds. destruct (hasChildren node) eqn:Hc; [done|].
  by rewrite (childrenOrEmpty_leaf _ Hc).
Qed.

(** The set [handleToggleChecked] builds before it reconciles. *)
Lemma handleToggleChecked_bulk context node checked :
  enableBulkActions context = true →
  checkedNodes context = Some checked → onCheckedNodesChange context = true →
  handleToggleChecked context node
  = [OnCheckedNodesChange
       (updateParentCheckStates (data context)
          (if bool_decide (id node ∈ checked)
           then deleteAll (allDescendantIds node) (checked ∖ {[ id node ]})
           else addAll (allDescendantIds node) (checked ∪ {[ id node ]})))].
Proof.
  intros Hb Hc Hcb. unfold handleToggleChecked, isChecked, allDescendantIds.
  by rewrite Hc, Hcb, Hb.
Qed.

Lemma elem_of_toggled node (checked : gset string) x :
  x ∈ (if bool_decide (id node ∈ checked)
       then deleteAll (allDescendantIds node) (checked ∖ {[ id node ]})
       else addAll (allDescendantIds node) (checked ∪ {[ id node ]}))
  ↔ if bool_decide (id node ∈ checked)
    then x ∈ checked ∧ x ≠ id node ∧ x ∉ allDescendantIds node
    else x ∈ checked ∨ x = id node ∨ x ∈ allDescendantIds node.
Proof.
  case_bool_decide.
  - rewrite elem_of_deleteAll. set_solver.
  - rewrite elem_of_addAll. set_solver.
Qed.

(** The leaves below a node of the subtree of [node] are descendants of
    [node]. *)
Lemma subtree_leaves node n y :
  n = node ∨ n ∈ allNodes (childrenOrEmpty node) →
  y ∈ leafDescendants n → y ∈ allDescendantIds node.
Proof.
  rewrite allDescendantIds_children. intros [->|Hn] Hy.
  - by apply (sublist_subseteq _ _ (getLeafNodeIds_sublist _)).
  - apply (sublist_subseteq _ _ (getLeafNodeIds_sublist _)).
    by apply (leafDescendants_forest _ n).
Qed.

(** X2. Toggling a node of the tree in bulk mode (ids unique) gives the
    node and every one of its descendants the same membership in the
    committed set: all checked when the node was unchecked, all unchecked
    when it was checked. *)
Theorem handleToggleChecked_subtree context node checked :
  enableBulkActions context = true →
  checkedNodes context = Some checked → onCheckedNodesChange context = true →
  uniqueIds (data context) → node ∈ allNodes (data context) →
  ∃ checked',
    handleToggleChecked context node = [OnCheckedNodesChange checked']
    ∧ ∀ x, x = id node ∨ x ∈ getAllDescendantIds (childrenOrEmpty node) →
           (x ∈ checked' ↔ id node ∉ checked).
Proof.
  intros Hb Hc Hcb Hu Hnode. eexists. split; [by apply handleToggleChecked_bulk|].
  set (T := if bool_decide (id node ∈ checked) then _ else _).
  assert (HT : ∀ y, y = id node ∨ y ∈ allDescendantIds node →
            (y ∈ T ↔ id node ∉ checked)).
  { intros y Hy. unfold T. rewrite elem_of_toggled.
    case_bool_decide; [|naive_solver]. split; [|done].
    intros (_ & ? & ?). naive_solver. }
  intros x Hx. rewrite <- allDescendantIds_children in Hx.
  assert (Hn : ∃ n, (n = node ∨ n ∈ allNodes (childrenOrEmpty node)) ∧ id n = x).
  { destruct Hx as [->|Hx]; [by exists node; auto|].
    rewrite allDescendantIds_children in Hx.
    apply elem_of_getAllDescendantIds in Hx as (n & Hn & Hid). exists n. auto. }
  destruct Hn as (n & Hn & Hid).
  assert (Hin : n ∈ allNodes (data context)).
  { destruct Hn as [->|Hn]; [done|]. by apply (allNodes_children _ node). }
  destruct (hasChildren n) eqn:Hcn.
  - subst x. rewrite (updateParentCheckStates_consistent _ T Hu n Hin Hcn).
    rewrite updateParentCheckStates_leaves by done.
    destruct (leafDescendants n) as [|y0 l] eqn:Hl.
    { exfalso. by apply (getLeafNodeIds_nonempty (childrenOrEmpty n));
        [apply hasChildren_nonempty|]. }
    assert (Hsub : ∀ y, y ∈ y0 :: l → y ∈ allDescendantIds node).
    { intros y Hy. apply (subtree_leaves node n); [done | by rewrite Hl]. }
    split.
    + intros Hall. apply (HT y0); [right; apply Hsub, list_elem_of_here|].
      apply Hall, list_elem_of_here.
    + intros Hno y Hy. apply HT; [right; by apply Hsub | done].
  - subst x. rewrite updateParentCheckStates_leaf_membership by done.
    by apply HT.
Qed.

Lemma handleToggleChecked_subtree_witness :
  ∃ checked',
    handleToggleChecked (bulkContext sampleNested {[ "l1" ]})
      (parent "mid" [leaf "l1"; leaf "l2"])
    = [OnCheckedNodesChange checked']
    ∧ ∀ x, x = "mid" ∨ x ∈ ["l1"; "l2"] → (x ∈ checked' ↔ "mid" ∉ ({[ "l1" ]} : gset string)).
Proof.
  apply (handleToggleChecked_subtree (bulkContext sampleNested {[ "l1" ]})
           (parent "mid" [leaf "l1"; leaf "l2"]) {[ "l1" ]}).
  - reflexivity.
  - vm_compute. reflexivity.
  - reflexivity.
  - unfold uniqueIds. compute_done.
  - vm_compute. repeat constructor.
Defined.

(** X3. On a consistent checked set, toggling a leaf of the tree twice
    (the caller storing what it is handed in between) commits the
    original set again. *)
Theorem handleToggleChecked_leaf_twice context context' node checked checked1 :
  enableBulkActions context = true → enableBulkActions context' = true →
  onCheckedNodesChange context = true → onCheckedNodesChange context' = true →
  data context' = data context →
  uniqueIds (data context) → node ∈ allNodes (data context) →
  hasChildren node = false →
  PropagationConsistent (data context) checked →
  checkedNodes context = Some checked →
  handleToggleChecked context node = [OnCheckedNodesChange checked1] →
  checkedNodes context' = Some checked1 →
  handleToggleChecked context' node = [OnCheckedNodesChange checked].
Proof.
  intros Hb Hb' Hcb Hcb' Hd Hu Hnode Hl Hcons Hc Hfirst Hc'.
  rewrite (handleToggleChecked_leaf _ _ checked) in Hfirst by done.
  injection Hfirst as <-.
  rewrite (handleToggleChecked_leaf _ _ _ Hb' Hl Hc' Hcb'), Hd.
  do 2 f_equal. set (c1 := updateParentCheckStates _ (flipped _ checked)).
  assert (Hnp : ∀ y, ¬ (∃ p, p ∈ allNodes (data context)
                              ∧ hasChildren p = true ∧ id p = y) →
            (y ∈ flipped (id node) c1 ↔ y ∈ checked)).
  { intros y Hy. rewrite elem_of_flipped. unfold c1.
    rewrite !updateParentCheckStates_frame, !elem_of_flipped; [|done|].
    - destruct (decide (y = id node)) as [->|];
        destruct (decide (id node ∈ checked)); naive_solver.
    - intros (p & Hp & Hpc & Hid).
      assert (p = node) as ->; [|congruence].
      apply (NoDup_fmap_inj_on id (allNodes (data context))); try done.
      by rewrite <- getAllDescendantIds_allNodes. }
  pose proof (updateParentCheckStates_of_consistent _ _ Hu Hcons) as Hfix.
  etrans; [|exact Hfix]. apply set_eq. intros x.
  rewrite !updateParentCheckStates_spec by done.
  assert (Hleaves : ∀ p, p ∈ allNodes (data context) →
            ((∀ y, y ∈ leafDescendants p → y ∈ flipped (id node) c1)
             ↔ (∀ y, y ∈ leafDescendants p → y ∈ checked))).
  { intros p Hp. split; intros H y Hy; apply Hnp; auto;
      intros (q & Hq & Hqc & Hid); subst y;
      by apply (parent_id_not_leaf (data context) q p). }
  split.
  - intros [[Hn Hx]|(p & Hp & Hpc & Hid & Hall)].
    + left. split; [done|]. by apply Hnp.
    + right. exists p. repeat split; try done. by apply Hleaves.
  - intros [[Hn Hx]|(p & Hp & Hpc & Hid & Hall)].
    + left. split; [done|]. by apply Hnp.
    + right. exists p. repeat split; try done. by apply Hleaves.
Qed.

Lemma handleToggleChecked_leaf_twice_witness :
  handleToggleChecked (bulkContext sampleFlat {[ "leafB" ]}) (leaf "leafA")
  = [OnCheckedNodesChange {[ "leafB"; "root"; "leafA" ]}].
Proof.
  apply (handleToggleChecked_leaf_twice
           (bulkContext sampleFlat {[ "leafB"; "root"; "leafA" ]})
           (bulkContext sampleFlat {[ "leafB" ]})
           (leaf "leafA") {[ "leafB"; "root"; "leafA" ]} {[ "leafB" ]});
    try reflexivity.
  - unfold uniqueIds. compute_done.
  - vm_compute. repeat constructor.
  - apply consistent_of_fixpoint; [unfold uniqueIds; compute_done | by vm_compute].
Defined.

(** X4. A checked-state operation touches the node, its descendants, the
    reported values and the parents of the tree at most: every other id
    (a leaf elsewhere in the tree, an id unknown to the tree) keeps its
    membership in the committed set. *)
Theorem checked_operations_frame context node newValues checked x :
  checkedNodes context = Some checked →
  (¬ ∃ p, p ∈ allNodes (data context) ∧ hasChildren p = true ∧ id p = x) →
  x ∉ allDescendantIds node →
  (x ≠ id node → ∀ checked',
     handleToggleChecked context node = [OnCheckedNodesChange checked'] →
     (x ∈ checked' ↔ x ∈ checked))
  ∧ (x ∉ newValues → ∀ checked',
       handleLocalCheckboxChange context node newValues
         = [OnCheckedNodesChange checked'] →
       (x ∈ checked' ↔ x ∈ checked)).
Proof.
  intros Hc Hnp Hnd. split.
  - intros Hne c'. unfold handleToggleChecked. rewrite Hc.
    destruct (onCheckedNodesChange context); simpl; [|done].
    intros [= <-]. rewrite updateParentCheckStates_frame by done.
    fold (allDescendantIds node).
    destruct (isChecked context node).
    + rewrite elem_of_deleteAll. set_solver.
    + rewrite elem_of_addAll. set_solver.
  - intros Hnv c'. unfold handleLocalCheckboxChange. rewrite Hc.
    destruct (onCheckedNodesChange context); simpl; [|done].
    intros [= <-]. rewrite updateParentCheckStates_frame by done.
    rewrite elem_of_addAll, elem_of_deleteAll. naive_solver.
Qed.

Lemma checked_operations_frame_witness :
  "l3" ∈ ({[ "l3"; "mid"; "l1"; "l2"; "root" ]} : gset string)
  ↔ "l3" ∈ ({[ "l3" ]} : gset string).
Proof.
  apply (proj1 (checked_operations_frame (bulkContext sampleNested {[ "l3" ]})
                  (parent "mid" [leaf "l1"; leaf "l2"]) [] {[ "l3" ]} "l3"
                  ltac:(by vm_compute)
                  ltac:(rewrite <- elem_of_parent_ids; compute_done)
                  ltac:(compute_done))).
  - discriminate.
  - by vm_compute.
Defined.

(** ** The value of a parent's checkbox group *)

Lemma localChildValues_bulk context node checked :
  enableBulkActions context = true → checkedNodes context = Some checked →
  localChildValues context node = filter (λ i, i ∈ checked) (allDescendantIds node).
Proof.
  intros Hb Hc. unfold localChildValues, allDescendantIds. rewrite Hc, Hb.
  by destruct (hasChildren node).
Qed.

(** X5. In bulk mode, the value of a parent's group is the checked part
    of its descendants, in order, and reporting that value back changes
    no leaf: the hook commits the reconciliation of the current checked
    set, which is the current set itself when it is consistent (ids
    unique). *)
Theorem localChildValues_round_trip context node checked :
  enableBulkActions context = true →
  checkedNodes context = Some checked → onCheckedNodesChange context = true →
  (∀ v, v ∈ localChildValues context node
        ↔ v ∈ allDescendantIds node ∧ v ∈ checked)
  ∧ localChildValues context node `sublist_of` allDescendantIds node
  ∧ handleLocalCheckboxChange context node (localChildValues context node)
    = [OnCheckedNodesChange (updateParentCheckStates (data context) checked)]
  ∧ (uniqueIds (data context) → PropagationConsistent (data context) checked →
     handleLocalCheckboxChange context node (localChildValues context node)
     = [OnCheckedNodesChange checked]).
Proof.
  intros Hb Hc Hcb. rewrite (localChildValues_bulk _ _ checked) by done.
  assert (Hcall : handleLocalCheckboxChange context node
                    (filter (λ i, i ∈ checked) (allDescendantIds node))
                  = [OnCheckedNodesChange
                       (updateParentCheckStates (data context) checked)]).
  { unfold handleLocalCheckboxChange. rewrite Hc, Hcb. simpl. do 3 f_equal.
    apply set_eq. intros x.
    rewrite elem_of_addAll, elem_of_deleteAll, list_elem_of_filter.
    destruct (decide (x ∈ allDescendantIds node)); naive_solver. }
  split; [|split; [apply sublist_filter | split; [done|]]].
  - intros v. rewrite list_elem_of_filter. naive_solver.
  - intros Hu Hcons. by rewrite Hcall, updateParentCheckStates_of_consistent.
Qed.

Lemma localChildValues_round_trip_witness :
  handleLocalCheckboxChange (bulkContext sampleNested {[ "l1"; "l3" ]})
    (parent "mid" [leaf "l1"; leaf "l2"])
    (localChildValues (bulkContext sampleNested {[ "l1"; "l3" ]})
       (parent "mid" [leaf "l1"; leaf "l2"]))
  = [OnCheckedNodesChange
       (updateParentCheckStates (data (bulkContext sampleNested {[ "l1"; "l3" ]}))
          {[ "l1"; "l3" ]})].
Proof.
  apply (localChildValues_round_trip (bulkContext sampleNested {[ "l1"; "l3" ]})
           (parent "mid" [leaf "l1"; leaf "l2"]) {[ "l1"; "l3" ]}).
  - reflexivity.
  - by vm_compute.
  - reflexivity.
Defined.

(** ** Where the two policies agree *)

Lemma updateParentCheckStates_leaves_only nodes checkedSet :
  (∀ c, c ∈ nodes → hasChildren c = false) →
  updateParentCheckStates nodes checkedSet = checkedSet.
Proof.
  induction nodes as [|c l IH]; intros Hall; [done|].
  rewrite updateParentCheckStates_cons, (Hall c) by apply list_elem_of_here.
  apply IH. intros c' Hc'. by apply Hall, list_elem_of_further.
Qed.

Lemma leaves_only_ids nodes :
  (∀ c, c ∈ nodes → hasChildren c = false) →
  getLeafNodeIds nodes = getAllDescendantIds nodes.
Proof.
  induction nodes as [|c l IH]; intros Hall; [done|].
  rewrite getLeafNodeIds_cons, getAllDescendantIds_cons,
    (Hall c) by apply list_elem_of_here.
  simpl. f_equal. apply IH. intros c' Hc'. by apply Hall, list_elem_of_further.
Qed.

(** X6. On a tree made of one parent whose children are all leaves (ids
    unique), when the group reports distinct ids of its own children, the
    two implementations of [handleLocalCheckboxChange] commit the same
    set: the local policy's count test decides what the global
    reconciliation decides. *)
Theorem propagation_policies_agree_one_level
    context (localContext : LocalPolicy.TreeContextValue) node newValues checked :
  data context = [node] → hasChildren node = true →
  (∀ c, c ∈ childrenOrEmpty node → hasChildren c = false) →
  uniqueIds [node] →
  NoDup newValues → (∀ v, v ∈ newValues → v ∈ allDescendantIds node) →
  checkedNodes context = Some checked →
  LocalPolicy.checkedNodes localContext = Some checked →
  LocalPolicy.onCheckedNodesChange localContext = onCheckedNodesChange context →
  handleLocalCheckboxChange context node newValues
  = LocalPolicy.handleLocalCheckboxChange localContext node newValues.
Proof.
  intros Hd Hp Hflat Hu Hnd Hsub Hc Hlc Hcb.
  unfold handleLocalCheckboxChange, LocalPolicy.handleLocalCheckboxChange.
  rewrite Hc, Hlc, Hcb, Hd.
  destruct (onCheckedNodesChange context); simpl; [|done]. do 2 f_equal.
  set (cs1 := addAll newValues (deleteAll (allDescendantIds node) checked)).
  rewrite updateParentCheckStates_cons, Hp.
  rewrite (updateParentCheckStates_leaves_only (childrenOrEmpty node)) by done.
  change (updateParentCheckStates [] ?s) with s. unfold setParent.
  assert (HL : leafDescendants node = allDescendantIds node).
  { unfold leafDescendants. by rewrite leaves_only_ids, allDescendantIds_children. }
  assert (HA : allLeafIds node = allDescendantIds node).
  { unfold allLeafIds. rewrite Hp. exact HL. }
  rewrite HL, HA.
  assert (HndD : NoDup (allDescendantIds node)).
  { unfold uniqueIds in Hu. rewrite getAllDescendantIds_cons, Hp, app_nil_r in Hu.
    apply NoDup_cons in Hu as [_ Hu]. by rewrite allDescendantIds_children. }
  assert (Hin : ∀ y, y ∈ allDescendantIds node → (y ∈ cs1 ↔ y ∈ newValues)).
  { intros y Hy. unfold cs1. rewrite elem_of_addAll, elem_of_deleteAll. naive_solver. }
  destruct (everyChecked (allDescendantIds node) cs1) eqn:He; case_bool_decide as Hlen;
    try done; exfalso.
  - apply Hlen. apply Permutation_length, NoDup_Permutation; try done.
    intros y. split; [by apply Hsub|]. intros Hy. apply Hin; [done|].
    by apply (proj1 (everyChecked_true _ _) He).
  - assert (Hperm : newValues ≡ₚ allDescendantIds node).
    { apply submseteq_length_Permutation; [by apply NoDup_submseteq | lia]. }
    assert (Hall : everyChecked (allDescendantIds node) cs1 = true); [|congruence].
    apply everyChecked_true. intros y Hy. apply Hin; [done|]. by rewrite Hperm.
Qed.

Lemma propagation_policies_agree_one_level_witness :
  handleLocalCheckboxChange (bulkContext sampleFlat {[ "leafA" ]})
    (parent "root" [leaf "leafA"; leaf "leafB"]) ["leafB"; "leafA"]
  = LocalPolicy.handleLocalCheckboxChange (localPolicyContext {[ "leafA" ]})
      (parent "root" [leaf "leafA"; leaf "leafB"]) ["leafB"; "leafA"].
Proof.
  apply (propagation_policies_agree_one_level
           (bulkContext sampleFlat {[ "leafA" ]}) (localPolicyContext {[ "leafA" ]})
           (parent "root" [leaf "leafA"; leaf "leafB"]) ["leafB"; "leafA"]
           {[ "leafA" ]}); try reflexivity.
  - intros c Hc. vm_compute in Hc.
    repeat (apply elem_of_cons in Hc as [->|Hc]; [reflexivity|]).
    by apply not_elem_of_nil in Hc.
  - unfold uniqueIds. compute_done.
  - compute_done.
  - intros v Hv. vm_compute.
    repeat (apply elem_of_cons in Hv as [->|Hv]; [repeat constructor|]).
    by apply not_elem_of_nil in Hv.
Defined.

(** ** Expanding and collapsing *)

Lemma flipped_twice x (s : gset string) : flipped x (flipped x s) = s.
Proof.
  apply set_eq. intros y. rewrite !elem_of_flipped.
  destruct (decide (y = x)) as [->|]; destruct (decide (x ∈ s)); naive_solver.
Qed.

(** X7. An uncontrolled tree (no [expanded] prop) stores the toggled set
    itself: after [handleToggleNode] the expanded set is the old one with
    the id's membership flipped, nothing else of the state changes, and
    toggling the same id again restores the state. *)
Theorem handleToggleNode_uncontrolled props st nodeId :
  props_expanded props = None →
  let st1 := applyCalls st
               (handleToggleNode props (Tree_expandedNodes props st) nodeId) in
  Tree_expandedNodes props st1 = flipped nodeId (Tree_expandedNodes props st)
  ∧ lastFocused st1 = lastFocused st ∧ registered st1 = registered st
  ∧ applyCalls st1 (handleToggleNode props (Tree_expandedNodes props st1) nodeId)
    = st.
Proof.
  intros Hex. cbv zeta. unfold handleToggleNode, Tree_expandedNodes.
  rewrite !Hex. simpl.
  fold (flipped nodeId (internalExpanded st)).
  fold (flipped nodeId (flipped nodeId (internalExpanded st))).
  rewrite flipped_twice. by destruct st.
Qed.

Lemma handleToggleNode_uncontrolled_witness :
  Tree_expandedNodes (demoProps [])
    (applyCalls (Tree_initialState (demoProps []))
       (handleToggleNode (demoProps [])
          (Tree_expandedNodes (demoProps []) (Tree_initialState (demoProps [])))
          "lib"))
  = flipped "lib"
      (Tree_expandedNodes (demoProps []) (Tree_initialState (demoProps []))).
Proof.
  apply (handleToggleNode_uncontrolled (demoProps [])
           (Tree_initialState (demoProps [])) "lib").
  reflexivity.
Defined.

(** X8. A controlled tree (an [expanded] prop is given) never changes
    what it shows by itself.  With [onExpandedChange] the callback gets
    the flipped set and the tree's own state is untouched; without it the
    toggle goes to the internal cell, which a controlled tree does not
    read: the expanded set and the visible ids stay as they are. *)
Theorem handleToggleNode_controlled props st nodeId expanded :
  props_expanded props = Some expanded →
  let calls := handleToggleNode props (Tree_expandedNodes props st) nodeId in
  (props_onExpandedChange props = true →
   calls = [OnExpandedChange (flipped nodeId (list_to_set expanded))]
   ∧ applyCalls st calls = st)
  ∧ (props_onExpandedChange props = false →
     calls = [SetInternalExpanded (flipped nodeId (list_to_set expanded))])
  ∧ Tree_expandedNodes props (applyCalls st calls) = Tree_expandedNodes props st
  ∧ visibleNodeIds (Tree_context props (applyCalls st calls))
    = visibleNodeIds (Tree_context props st).
Proof.
  intros Hex. cbv zeta.
  unfold handleToggleNode, Tree_context, Tree_expandedNodes, flipped.
  rewrite !Hex. simpl.
  destruct (props_onExpandedChange props); simpl; repeat split; done.
Qed.

Lemma handleToggleNode_controlled_witness :
  visibleNodeIds
    (Tree_context
       {| props_data := sampleNested; props_selectedNode := None;
          props_onNodeSelect := false; props_defaultExpanded := [];
          props_expanded := Some ["root"]; props_onExpandedChange := false;
          props_checkedNodes := None; props_onCheckedNodesChange := false;
          props_enableBulkActions := false; props_disableSelection := false |}
       (applyCalls (stateOf ∅ None) [SetInternalExpanded {[ "root"; "mid" ]}]))
  = ["root"; "mid"; "l3"].
Proof.
  pose proof (handleToggleNode_controlled
                {| props_data := sampleNested; props_selectedNode := None;
                   props_onNodeSelect := false; props_defaultExpanded := [];
                   props_expanded := Some ["root"]; props_onExpandedChange := false;
                   props_checkedNodes := None; props_onCheckedNodesChange := false;
                   props_enableBulkActions := false;
                   props_disableSelection := false |}
                (stateOf ∅ None) "mid" ["root"] eq_refl) as (_ & _ & _ & H).
  exact H.
Defined.

(** ** Visibility under a toggle *)

Lemma filter_sublist_mono {A} (P Q : A → Prop)
    `{!∀ x, Decision (P x)} `{!∀ x, Decision (Q x)} (l : list A) :
  (∀ x, P x → Q x) → filter P l `sublist_of` filter Q l.
Proof.
  intros HPQ. induction l as [|x l IH]; [done|].
  rewrite !filter_cons. destruct (decide (P x)) as [HP|HP].
  - rewrite decide_True by auto. by apply sublist_skip.
  - destruct (decide (Q x)); [by apply sublist_cons | done].
Qed.

(** The visible ids of a tree under an expanded set. *)
Lemma collectVisibleIds_visible expanded nodes :
  (collectVisibleIds expanded nodes ([], ∅)).1
  = (λ an, id an.2) <$> filter (λ an, allExpanded expanded an.1 = true)
                          (nodesWithAncestors [] nodes).
Proof.
  rewrite (collectVisibleIds_spec _ _ []) by done. simpl.
  by rewrite <- list_fmap_compose.
Qed.

Lemma visibleIds_iff expanded nodes ancestors node :
  uniqueIds nodes → (ancestors, node) ∈ nodesWithAncestors [] nodes →
  (id node ∈ (collectVisibleIds expanded nodes ([], ∅)).1
   ↔ ∀ a, a ∈ ancestors → a ∈ expanded).
Proof.
  intros Hu Hin. rewrite collectVisibleIds_visible, list_elem_of_fmap. split.
  - intros ([anc' n'] & Hid & Hin').
    apply list_elem_of_filter in Hin' as [Hvis Hin']. simpl in *.
    assert (Heq : (anc', n') = (ancestors, node)).
    { apply (NoDup_fmap_inj_on (λ an, id an.2) (nodesWithAncestors [] nodes));
        try done.
      unfold uniqueIds in Hu.
      rewrite getAllDescendantIds_allNodes, <- (nodesWithAncestors_allNodes []),
        <- list_fmap_compose in Hu. exact Hu. }
    injection Heq as -> ->. by apply allExpanded_true.
  - intros Hexp. exists (ancestors, node). split; [done|].
    apply list_elem_of_filter. split; [|done]. by apply allExpanded_true.
Qed.

(** X9. Toggling the expansion of an id changes the visibility of the
    nodes below it only (ids unique): a node that does not have the id
    among its ancestors is visible after the toggle exactly when it was
    before, and collapsing hides every node that has. *)
Theorem expansion_toggle_visibility expanded nodes x ancestors node :
  uniqueIds nodes → (ancestors, node) ∈ nodesWithAncestors [] nodes →
  (x ∉ ancestors →
   (id node ∈ (collectVisibleIds (flipped x expanded) nodes ([], ∅)).1
    ↔ id node ∈ (collectVisibleIds expanded nodes ([], ∅)).1))
  ∧ (x ∈ ancestors → x ∈ expanded →
     id node ∉ (collectVisibleIds (flipped x expanded) nodes ([], ∅)).1)
  ∧ (x ∈ ancestors → x ∉ expanded →
     (id node ∈ (collectVisibleIds (flipped x expanded) nodes ([], ∅)).1
      ↔ ∀ a, a ∈ ancestors → a ≠ x → a ∈ expanded)).
Proof.
  intros Hu Hin. rewrite !(visibleIds_iff _ nodes ancestors node) by done.
  split; [|split].
  - intros Hx. split; intros H a Ha; specialize (H a Ha);
      rewrite elem_of_flipped in *; naive_solver.
  - intros Hx Hex H. specialize (H x Hx). rewrite elem_of_flipped in H. naive_solver.
  - intros Hx Hex. split.
    + intros H a Ha Hne. specialize (H a Ha). rewrite elem_of_flipped in H.
      naive_solver.
    + intros H a Ha. rewrite elem_of_flipped.
      destruct (decide (a = x)) as [->|]; [by left | right; auto].
Qed.

Lemma expansion_toggle_visibility_witness :
  "l3" ∈ (collectVisibleIds (flipped "mid" {[ "root" ]}) sampleNested ([], ∅)).1
  ↔ "l3" ∈ (collectVisibleIds {[ "root" ]} sampleNested ([], ∅)).1.
Proof.
  apply (proj1 (expansion_toggle_visibility {[ "root" ]} sampleNested "mid"
                  ["root"] (leaf "l3")
                  ltac:(unfold uniqueIds; compute_done)
                  ltac:(vm_compute; repeat constructor))).
  compute_done.
Defined.

(** X10. Expanding more never hides anything: when one expanded set is
    included in another, the visible ids under the first are a
    sub-sequence of the visible ids under the second. *)
Theorem visibleNodeIds_monotone (expanded expanded' : gset string) nodes :
  expanded ⊆ expanded' →
  (collectVisibleIds expanded nodes ([], ∅)).1
  `sublist_of` (collectVisibleIds expanded' nodes ([], ∅)).1.
Proof.
  intros Hsub. rewrite !collectVisibleIds_visible.
  apply fmap_sublist, filter_sublist_mono. intros [anc n]. simpl.
  rewrite !allExpanded_true. intros H a Ha. apply Hsub. auto.
Qed.

Lemma visibleNodeIds_monotone_witness :
  (collectVisibleIds {[ "src" ]} createTreeData ([], ∅)).1
  `sublist_of` (collectVisibleIds {[ "src"; "components" ]} createTreeData ([], ∅)).1.
Proof.
  apply (visibleNodeIds_monotone {[ "src" ]} {[ "src"; "components" ]} createTreeData).
  set_solver.
Defined.

Lemma collectVisibleIds_collapsed nodes acc :
  collectVisibleIds ∅ nodes acc = (acc.1 ++ (id <$> nodes), markDisabled nodes acc.2).
Proof.
  revert acc. induction nodes as [|node rest IH]; intros acc.
  - unfold collectVisibleIds, markDisabled. simpl. rewrite app_nil_r. by destruct acc.
  - rewrite collectVisibleIds_cons. cbv zeta.
    rewrite bool_decide_false by set_solver. rewrite IH. simpl.
    by rewrite <- app_assoc, markDisabled_cons.
Qed.

Lemma collectVisibleIds_expanded_all expanded nodes :
  (∀ p, p ∈ allNodes nodes → hasChildren p = true → id p ∈ expanded) →
  ∀ acc, (collectVisibleIds expanded nodes acc).1 = acc.1 ++ getAllDescendantIds nodes.
Proof.
  induction nodes as [|node rest IHc IHr] using forest_ind; intros Hall acc.
  - unfold collectVisibleIds. simpl. by rewrite app_nil_r.
  - rewrite collectVisibleIds_cons, getAllDescendantIds_children. cbv zeta.
    rewrite allNodes_cons in Hall.
    rewrite IHr; last first.
    { intros p Hp. apply Hall. apply elem_of_cons. right. apply elem_of_app. by right. }
    destruct (hasChildren node) eqn:Hc.
    + rewrite bool_decide_true by (apply Hall; [apply list_elem_of_here | done]).
      rewrite IHc; last first.
      { intros p Hp. apply Hall. apply elem_of_cons. right. apply elem_of_app. by left. }
      simpl. by rewrite <- !app_assoc.
    + rewrite (childrenOrEmpty_leaf _ Hc).
      change (collectVisibleIds expanded [] ?a) with a.
      destruct (bool_decide _); simpl; by rewrite <- app_assoc.
Qed.

(** X11. The two ends of the visible-id computation: with nothing
    expanded the visible ids are the ids of the roots, in order; with
    every parent of the tree expanded they are all the ids of the tree in
    pre-order. *)
Theorem visibleNodeIds_extremes props st :
  (Tree_expandedNodes props st = ∅ →
   visibleNodeIds (Tree_context props st) = id <$> props_data props)
  ∧ ((∀ p, p ∈ allNodes (props_data props) → hasChildren p = true →
           id p ∈ Tree_expandedNodes props st) →
     visibleNodeIds (Tree_context props st) = getAllDescendantIds (props_data props)).
Proof.
  unfold Tree_context; simpl. split.
  - intros ->. by rewrite collectVisibleIds_collapsed.
  - intros Hall. by rewrite collectVisibleIds_expanded_all.
Qed.

Lemma visibleNodeIds_extremes_witness :
  visibleNodeIds (Tree_context (propsOf createTreeData) (stateOf ∅ None))
  = id <$> createTreeData.
Proof.
  apply (proj1 (visibleNodeIds_extremes (propsOf createTreeData) (stateOf ∅ None))).
  reflexivity.
Defined.

(** ** The parent map *)

Lemma nodesWithAncestors_root ancestors nodes c :
  c ∈ nodes → (ancestors, c) ∈ nodesWithAncestors ancestors nodes.
Proof.
  intros Hc. unfold nodesWithAncestors. apply elem_of_flat_map. exists c.
  split; [done|]. destruct c as [i [l|] d]; apply list_elem_of_here.
Qed.

Lemma nodesWithAncestors_child nodes :
  ∀ ancestors a p c,
    (a, p) ∈ nodesWithAncestors ancestors nodes → c ∈ childrenOrEmpty p →
    (a ++ [id p], c) ∈ nodesWithAncestors ancestors nodes.
Proof.
  induction nodes as [|node rest IHc IHr] using forest_ind; intros anc a p c Hp Hc.
  - by apply not_elem_of_nil in Hp.
  - rewrite nodesWithAncestors_cons in *.
    apply elem_of_cons in Hp as [[= -> ->]|Hp]; [|apply elem_of_app in Hp as [Hp|Hp]].
    + apply elem_of_cons. right. apply elem_of_app. left.
      by apply nodesWithAncestors_root.
    + apply elem_of_cons. right. apply elem_of_app. left. by eapply IHc.
    + apply elem_of_cons. right. apply elem_of_app. right. by eapply IHr.
Qed.

Lemma nodesWithAncestors_occurs nodes ancestors p :
  p ∈ allNodes nodes → ∃ a, (a, p) ∈ nodesWithAncestors ancestors nodes.
Proof.
  rewrite <- (nodesWithAncestors_allNodes ancestors). intros Hp.
  apply list_elem_of_fmap in Hp as ([a p'] & -> & Hin). by exists a.
Qed.

Lemma parentNodeMap_child props st p c :
  uniqueIds (props_data props) → "" ∉ getAllDescendantIds (props_data props) →
  p ∈ allNodes (props_data props) → c ∈ childrenOrEmpty p →
  parentNodeMap (Tree_context props st) !! id c = Some (id p).
Proof.
  intros Hu Hne Hp Hc.
  destruct (nodesWithAncestors_occurs _ [] p Hp) as [a Ha].
  rewrite (parentNodeMap_last_ancestor props st (a ++ [id p]) c) by
    (try done; by apply nodesWithAncestors_child).
  apply last_snoc.
Qed.

Lemma parentNodeMap_root props st r :
  uniqueIds (props_data props) → "" ∉ getAllDescendantIds (props_data props) →
  r ∈ props_data props →
  parentNodeMap (Tree_context props st) !! id r = None.
Proof.
  intros Hu Hne Hr.
  by rewrite (parentNodeMap_last_ancestor props st [] r) by
    (try done; by apply nodesWithAncestors_root).
Qed.

(** X12. The parent map, on a tree with unique non-empty ids: every child
    of a node is mapped to that node's id, a root has no entry, and no
    key outside the tree has one. *)
Theorem parentNodeMap_parents props st :
  uniqueIds (props_data props) → "" ∉ getAllDescendantIds (props_data props) →
  (∀ p c, p ∈ allNodes (props_data props) → c ∈ childrenOrEmpty p →
          parentNodeMap (Tree_context props st) !! id c = Some (id p))
  ∧ (∀ r, r ∈ props_data props →
          parentNodeMap (Tree_context props st) !! id r = None)
  ∧ (∀ x, x ∉ getAllDescendantIds (props_data props) →
          parentNodeMap (Tree_context props st) !! x = None).
Proof.
  intros Hu Hne. split; [|split].
  - intros p c Hp Hc. by apply parentNodeMap_child.
  - intros r Hr. by apply parentNodeMap_root.
  - intros x Hx. unfold Tree_context; simpl.
    destruct (buildParentMap_spec (props_data props) [] ∅ Hu Hne) as [_ H].
    { apply not_elem_of_nil. }
    simpl in H. by rewrite H.
Qed.

Lemma parentNodeMap_parents_witness :
  parentNodeMap (Tree_context (propsOf createTreeData) (stateOf ∅ None)) !! "src"
  = None.
Proof.
  apply (proj1 (proj2 (parentNodeMap_parents (propsOf createTreeData) (stateOf ∅ None)
                         ltac:(unfold uniqueIds; compute_done)
                         ltac:(compute_done)))
           (mkNode "src" (children (hd (leaf "") createTreeData)) false)).
  vm_compute. repeat constructor.
Defined.

(** The empty id is the one a parent cannot have: it is falsy, and the
    children of such a node get no entry. *)
Example parentNodeMap_empty_id :
  buildParentMap [parent "" [leaf "a"]; parent "p" [leaf "b"]] None ∅
  = {[ "b" := "p" ]}.
Proof. vm_compute. reflexivity. Qed.

(** ** The keys, one by one *)

(** X13. ArrowLeft on a node that is not an expanded parent (ids unique
    and non-empty): on a child it moves the focus to the parent when the
    parent's row is registered, whether or not the parent is disabled,
    and does nothing when it is not registered; on a root it does
    nothing. *)
Theorem arrowLeft_focuses_parent props st :
  uniqueIds (props_data props) → "" ∉ getAllDescendantIds (props_data props) →
  (∀ p c, p ∈ allNodes (props_data props) → c ∈ childrenOrEmpty p →
          disabled c = false →
          hasChildren c && isExpanded (Tree_context props st) c = false →
          handleKeyDown (Tree_context props st) c Key_ArrowLeft
          = if bool_decide (id p ∈ registered st)
            then [Focus (id p); SetLastFocusedNodeId (Some (id p))]
            else [])
  ∧ (∀ r, r ∈ props_data props → disabled r = false →
          hasChildren r && isExpanded (Tree_context props st) r = false →
          handleKeyDown (Tree_context props st) r Key_ArrowLeft = []).
Proof.
  intros Hu Hne. split.
  - intros p c Hp Hc Hd Hex. unfold handleKeyDown, isDisabled.
    rewrite Hd, Hex, (parentNodeMap_child props st p c) by done.
    assert (id p ≠ "").
    { intros Heq. apply Hne. rewrite <- Heq. apply elem_of_getAllDescendantIds. eauto. }
    simpl. by rewrite bool_decide_false by done.
  - intros r Hr Hd Hex. unfold handleKeyDown, isDisabled.
    by rewrite Hd, Hex, (parentNodeMap_root props st r) by done.
Qed.

Lemma arrowLeft_focuses_parent_witness :
  handleKeyDown
    (Tree_context (propsOf [mkNode "dp" (Some [leaf "k"]) true])
       {| internalExpanded := {[ "dp" ]}; lastFocused := Some "k";
          registered := {[ "dp"; "k" ]} |})
    (leaf "k") Key_ArrowLeft
  = if bool_decide ("dp" ∈ ({[ "dp"; "k" ]} : gset string))
    then [Focus "dp"; SetLastFocusedNodeId (Some "dp")]
    else [].
Proof.
  apply (proj1 (arrowLeft_focuses_parent
                  (propsOf [mkNode "dp" (Some [leaf "k"]) true])
                  {| internalExpanded := {[ "dp" ]}; lastFocused := Some "k";
                     registered := {[ "dp"; "k" ]} |}
                  ltac:(unfold uniqueIds; compute_done) ltac:(compute_done))
           (mkNode "dp" (Some [leaf "k"]) true) (leaf "k")).
  - vm_compute. repeat constructor.
  - vm_compute. repeat constructor.
  - reflexivity.
  - reflexivity.
Defined.

Lemma elem_of_handleToggleNode props expanded nodeId call :
  call ∈ handleToggleNode props expanded nodeId →
  call = OnExpandedChange (flipped nodeId expanded)
  ∨ call = SetInternalExpanded (flipped nodeId expanded).
Proof.
  destruct (handleToggleNode_flips props expanded nodeId) as [-> | ->];
    intros H; apply list_elem_of_singleton in H; auto.
Qed.

Lemma elem_of_handleToggleChecked context node call :
  call ∈ handleToggleChecked context node → ∃ s, call = OnCheckedNodesChange s.
Proof.
  unfold handleToggleChecked. destruct (checkedNodes context); [|by intros ?%not_elem_of_nil].
  destruct (onCheckedNodesChange context); simpl; [|by intros ?%not_elem_of_nil].
  intros H. apply list_elem_of_singleton in H. eauto.
Qed.

Lemma elem_of_focusFound found call :
  call ∈ focusFound found →
  ∃ y, found = Some y ∧ (call = Focus y ∨ call = SetLastFocusedNodeId (Some y)).
Proof.
  destruct found as [y|]; simpl; [|by intros ?%not_elem_of_nil].
  intros H. exists y. split; [done|].
  apply elem_of_cons in H as [->|H]; [by left|].
  apply list_elem_of_singleton in H. by right.
Qed.

(** X14. The horizontal arrows work in one direction each: the only
    expanded set ArrowRight ever hands over is the current one plus the
    node, for a collapsed parent, and it never moves the focus; the only
    one ArrowLeft hands over is the current one minus the node, for an
    expanded parent. *)
Theorem arrow_keys_expansion props st node call :
  (call ∈ handleKeyDown (Tree_context props st) node Key_ArrowRight →
   hasChildren node = true ∧ (id node ∉ Tree_expandedNodes props st)
   ∧ (call = OnExpandedChange (Tree_expandedNodes props st ∪ {[ id node ]})
      ∨ call = SetInternalExpanded (Tree_expandedNodes props st ∪ {[ id node ]})))
  ∧ (call ∈ handleKeyDown (Tree_context props st) node Key_ArrowLeft →
     (hasChildren node = true ∧ id node ∈ Tree_expandedNodes props st
      ∧ (call = OnExpandedChange (Tree_expandedNodes props st ∖ {[ id node ]})
         ∨ call = SetInternalExpanded (Tree_expandedNodes props st ∖ {[ id node ]})))
     ∨ (∃ parentId, parentNodeMap (Tree_context props st) !! id node = Some parentId
                    ∧ (call = Focus parentId
                       ∨ call = SetLastFocusedNodeId (Some parentId)))).
Proof.
  unfold handleKeyDown, isDisabled, isExpanded. simpl.
  destruct (disabled node); [split; by intros ?%not_elem_of_nil|].
  destruct (hasChildren node); simpl; split.
  - case_bool_decide as Hin; simpl; [by intros ?%not_elem_of_nil|].
    intros H. apply elem_of_handleToggleNode in H. unfold flipped in H.
    by rewrite bool_decide_false in H by done.
  - case_bool_decide as Hin; simpl.
    + intros H. apply elem_of_handleToggleNode in H. unfold flipped in H.
      rewrite bool_decide_true in H by done. by left.
    + destruct (buildParentMap _ _ _ !! id node) as [parentId|];
        [|by intros ?%not_elem_of_nil].
      destruct (_ && _); [|by intros ?%not_elem_of_nil].
      intros H. right. exists parentId. split; [done|].
      apply elem_of_cons in H as [->|H]; [by left|].
      apply list_elem_of_singleton in H. by right.
  - by intros ?%not_elem_of_nil.
  - destruct (buildParentMap _ _ _ !! id node) as [parentId|];
      [|by intros ?%not_elem_of_nil].
    destruct (_ && _); [|by intros ?%not_elem_of_nil].
    intros H. right. exists parentId. split; [done|].
    apply elem_of_cons in H as [->|H]; [by left|].
    apply list_elem_of_singleton in H. by right.
Qed.

Lemma arrow_keys_expansion_witness :
  hasChildren (parent "root" [leaf "leafA"; leaf "leafB"]) = true
  ∧ ("root" ∉ Tree_expandedNodes (propsOf sampleFlat) (stateOf ∅ None))
  ∧ (SetInternalExpanded {[ "root" ]}
     = OnExpandedChange (Tree_expandedNodes (propsOf sampleFlat) (stateOf ∅ None)
                         ∪ {[ "root" ]})
     ∨ SetInternalExpanded {[ "root" ]}
       = SetInternalExpanded (Tree_expandedNodes (propsOf sampleFlat) (stateOf ∅ None)
                              ∪ {[ "root" ]})).
Proof.
  apply (proj1 (arrow_keys_expansion (propsOf sampleFlat) (stateOf ∅ None)
                  (parent "root" [leaf "leafA"; leaf "leafB"])
                  (SetInternalExpanded {[ "root" ]}))).
  vm_compute. repeat constructor.
Defined.

(** X15. What a key or a click can call.  Every call of [handleKeyDown]
    and [handleClick] is a hand-over of an expanded set, of a checked
    set, a selection of the node itself or a focus move to some id;
    nothing is ever selected in bulk mode or with selection disabled, the
    checked set is only ever handed over in bulk mode, and the
    last-focused id is never reset to [null]. *)
Theorem handler_calls props st node key call :
  call ∈ handleKeyDown (Tree_context props st) node key
  ∨ call ∈ handleClick (Tree_context props st) node →
  disabled node = false
  ∧ ((∃ e, call = OnExpandedChange e ∨ call = SetInternalExpanded e)
     ∨ (∃ s, call = OnCheckedNodesChange s ∧ props_enableBulkActions props = true)
     ∨ (call = OnNodeSelect (id node)
        ∧ props_enableBulkActions props = false
        ∧ props_disableSelection props = false
        ∧ props_onNodeSelect props = true)
     ∨ (∃ y, call = Focus y ∨ call = SetLastFocusedNodeId (Some y))).
Proof.
  assert (Htoggle : ∀ c, c ∈ handleToggleNode props (Tree_expandedNodes props st) (id node) →
            ∃ e, c = OnExpandedChange e ∨ c = SetInternalExpanded e).
  { intros c Hc. apply elem_of_handleToggleNode in Hc as [->| ->]; eauto. }
  assert (Hselect : ∀ c, c ∈ callOnNodeSelect (Tree_context props st) node →
            c = OnNodeSelect (id node) ∧ props_onNodeSelect props = true).
  { intros c. unfold callOnNodeSelect. simpl.
    destruct (props_onNodeSelect props); [|by intros ?%not_elem_of_nil].
    intros Hc. by apply list_elem_of_singleton in Hc. }
  assert (Hactivate : ∀ c,
            c ∈ (if hasChildren node
                 then handleToggleNode props (Tree_expandedNodes props st) (id node)
                 else [])
                ++ (if negb (props_disableSelection props)
                    then callOnNodeSelect (Tree_context props st) node else []) →
            props_enableBulkActions props = false →
            (∃ e, c = OnExpandedChange e ∨ c = SetInternalExpanded e)
            ∨ (∃ s, c = OnCheckedNodesChange s ∧ props_enableBulkActions props = true)
            ∨ (c = OnNodeSelect (id node)
               ∧ props_enableBulkActions props = false
               ∧ props_disableSelection props = false
               ∧ props_onNodeSelect props = true)
            ∨ (∃ y, c = Focus y ∨ c = SetLastFocusedNodeId (Some y))).
  { intros c Hc Hb. apply elem_of_app in Hc as [Hc|Hc].
    - destruct (hasChildren node); [left; by apply Htoggle | by apply not_elem_of_nil in Hc].
    - destruct (props_disableSelection props) eqn:Hs; simpl in Hc;
        [by apply not_elem_of_nil in Hc|].
      apply Hselect in Hc as [-> ?]. right; right; left. done. }
  assert (Hfocus : ∀ found c, c ∈ focusFound found →
            ∃ y, c = Focus y ∨ c = SetLastFocusedNodeId (Some y)).
  { intros found c Hc. apply elem_of_focusFound in Hc as (y & _ & ?). eauto. }
  intros [Hcall|Hcall].
  - unfold handleKeyDown, isDisabled in Hcall. simpl in Hcall.
    destruct (disabled node); [by apply not_elem_of_nil in Hcall|].
    split; [done|].
    destruct key; simpl in Hcall.
    + destruct (props_enableBulkActions props) eqn:Hb; [|by apply Hactivate].
      apply elem_of_handleToggleChecked in Hcall as [s ->]. right; left. eauto.
    + destruct (props_enableBulkActions props) eqn:Hb; [|by apply Hactivate].
      destruct (hasChildren node); [left; by apply Htoggle|].
      apply elem_of_handleToggleChecked in Hcall as [s ->]. right; left. eauto.
    + destruct (_ && _); [left; by apply Htoggle | by apply not_elem_of_nil in Hcall].
    + destruct (_ && _); [left; by apply Htoggle|].
      destruct (buildParentMap _ _ _ !! id node) as [parentId|];
        [|by apply not_elem_of_nil in Hcall].
      destruct (_ && _); [|by apply not_elem_of_nil in Hcall].
      right; right; right. exists parentId.
      apply elem_of_cons in Hcall as [->|Hcall]; [by left|].
      apply list_elem_of_singleton in Hcall. by right.
    + right; right; right. by eapply Hfocus.
    + right; right; right. by eapply Hfocus.
    + right; right; right. by eapply Hfocus.
    + right; right; right. by eapply Hfocus.
    + by apply not_elem_of_nil in Hcall.
  - unfold handleClick, isDisabled in Hcall. simpl in Hcall.
    destruct (disabled node); [by apply not_elem_of_nil in Hcall|].
    split; [done|].
    destruct (props_enableBulkActions props) eqn:Hb.
    + apply elem_of_handleToggleChecked in Hcall as [s ->]. right; left. eauto.
    + destruct (props_disableSelection props) eqn:Hs; simpl in Hcall;
        [by apply not_elem_of_nil in Hcall|].
      apply Hselect in Hcall as [-> ?]. right; right; left. done.
Qed.

Lemma handler_calls_witness :
  disabled (leaf "leafA") = false
  ∧ ((∃ e, OnCheckedNodesChange {[ "leafA" ]} = OnExpandedChange e
           ∨ OnCheckedNodesChange {[ "leafA" ]} = SetInternalExpanded e)
     ∨ (∃ s, OnCheckedNodesChange {[ "leafA" ]} = OnCheckedNodesChange s
             ∧ props_enableBulkActions (bulkProps sampleFlat ∅) = true)
     ∨ (OnCheckedNodesChange {[ "leafA" ]} = OnNodeSelect (id (leaf "leafA"))
        ∧ props_enableBulkActions (bulkProps sampleFlat ∅) = false
        ∧ props_disableSelection (bulkProps sampleFlat ∅) = false
        ∧ props_onNodeSelect (bulkProps sampleFlat ∅) = true)
     ∨ (∃ y, OnCheckedNodesChange {[ "leafA" ]} = Focus y
             ∨ OnCheckedNodesChange {[ "leafA" ]} = SetLastFocusedNodeId (Some y))).
Proof.
  apply (handler_calls (bulkProps sampleFlat ∅) (stateOf ∅ None) (leaf "leafA")
           Key_Space (OnCheckedNodesChange {[ "leafA" ]})).
  left. vm_compute. repeat constructor.
Defined.

(** ** Navigation on the tree's own context *)

Lemma navigation_target context node key x :
  isNavigationKey key = true →
  Focus x ∈ handleKeyDown context node key →
  disabledNodesMap context !! x = None ∧ x ∈ visibleNodeIds context.
Proof.
  intros Hkey. unfold handleKeyDown.
  destruct (isDisabled node); [by intros ?%not_elem_of_nil|].
  destruct key; try discriminate Hkey; simpl; intros Hx;
    apply elem_of_focusFound in Hx as (y & Hfound & [[= ->]|[=]]).
  - apply scanForward_Some in Hfound as (? & _ & j & _ & Hj).
    split; [done|]. by eapply list_elem_of_lookup_2.
  - apply scanBackward_Some in Hfound as (? & _ & j & _ & Hj).
    split; [done|]. by eapply list_elem_of_lookup_2.
  - apply scanForward_Some in Hfound as (? & _ & j & _ & Hj).
    split; [done|]. by eapply list_elem_of_lookup_2.
  - apply scanBackward_Some in Hfound as (? & _ & j & _ & Hj).
    split; [done|]. by eapply list_elem_of_lookup_2.
Qed.

(** X16. With the context the [Tree] computes, the vertical arrows, Home
    and End only ever focus a visible row whose node is not disabled:
    the id they focus is the id of a visible node, and every visible node
    with that id has its [disabled] flag unset. *)
Theorem navigation_lands_on_enabled props st node key x :
  isNavigationKey key = true →
  Focus x ∈ handleKeyDown (Tree_context props st) node key →
  (∃ n, n ∈ visibleNodes (Tree_expandedNodes props st) (props_data props) ∧ id n = x)
  ∧ (∀ n, n ∈ visibleNodes (Tree_expandedNodes props st) (props_data props) →
          id n = x → disabled n = false).
Proof.
  intros Hkey Hx. apply navigation_target in Hx as [Hmap Hvis]; [|done].
  rewrite Tree_visibleNodeIds in Hvis. rewrite Tree_disabledNodesMap in Hmap.
  split.
  - apply list_elem_of_fmap in Hvis as (n & -> & Hn). eauto.
  - intros n Hn Hid. destruct (disabled n) eqn:Hd; [|done].
    assert (Hsome : is_Some (markDisabled
                      (visibleNodes (Tree_expandedNodes props st) (props_data props))
                      ∅ !! x)).
    { apply lookup_markDisabled. left. eauto. }
    rewrite Hmap in Hsome. by destruct Hsome.
Qed.

Lemma navigation_lands_on_enabled_witness : disabled (leaf "c") = false.
Proof.
  assert (Hfocus : Focus "c"
            ∈ handleKeyDown
                (Tree_context (propsOf sampleDisabledChild)
                   {| internalExpanded := {[ "a" ]}; lastFocused := None;
                      registered := {[ "a"; "b"; "c" ]} |})
                (parent "a" [mkNode "b" None true]) Key_ArrowDown).
  { vm_compute. repeat constructor. }
  apply (proj2 (navigation_lands_on_enabled (propsOf sampleDisabledChild)
                  {| internalExpanded := {[ "a" ]}; lastFocused := None;
                     registered := {[ "a"; "b"; "c" ]} |}
                  (parent "a" [mkNode "b" None true]) Key_ArrowDown "c" eq_refl
                  Hfocus) (leaf "c")).
  - vm_compute. repeat constructor.
  - reflexivity.
Defined.

(** ** Moving and coming back *)

Section Scans.

Variable context : TreeContextValue.
Local Open Scope nat_scope.

Lemma eligible_true x :
  eligible context x = true
  ↔ disabledNodesMap context !! x = None ∧ x ∈ focusableNodes context.
Proof.
  unfold eligible. rewrite andb_true_iff, negb_true_iff, bool_decide_eq_false,
    bool_decide_eq_true, <- eq_None_not_Some. done.
Qed.

Lemma head_filter_Some {A} (P : A → Prop) `{!∀ x, Decision (P x)} (l : list A) x :
  x ∈ l → P x → ∃ y, head (filter P l) = Some y ∧ P y.
Proof.
  intros Hx HP. assert (Hin : x ∈ filter P l) by (by apply list_elem_of_filter).
  destruct (filter P l) as [|y l'] eqn:Hf; [by apply not_elem_of_nil in Hin|].
  exists y. split; [done|].
  assert (Hy : y ∈ filter P l) by (rewrite Hf; apply list_elem_of_here).
  by apply list_elem_of_filter in Hy as [? _].
Qed.

Lemma scanForward_moves i j x :
  i ≤ j → visibleNodeIds context !! j = Some x → eligible context x = true →
  ∃ y, scanForward context (length (visibleNodeIds context)) i = Some y
       ∧ eligible context y = true.
Proof.
  intros Hij Hj He. rewrite scanForward_find by lia.
  apply (head_filter_Some _ _ x); [|done].
  apply list_elem_of_lookup. exists (j - i). rewrite lookup_drop.
  by replace (i + (j - i)) with j by lia.
Qed.

Lemma scanBackward_moves count j x :
  j < count → count ≤ length (visibleNodeIds context) →
  visibleNodeIds context !! j = Some x → eligible context x = true →
  ∃ y, scanBackward context count = Some y ∧ eligible context y = true.
Proof.
  intros Hjc Hc Hj He. rewrite scanBackward_find by done.
  apply (head_filter_Some _ _ x); [|done].
  apply elem_of_reverse, list_elem_of_lookup. exists j.
  by rewrite lookup_take_lt.
Qed.

(** The forward scan stops at the first eligible id. *)
Lemma scanForward_first fuel i x :
  scanForward context fuel i = Some x →
  ∃ j, i ≤ j ∧ visibleNodeIds context !! j = Some x
       ∧ ∀ k y, i ≤ k → k < j → visibleNodeIds context !! k = Some y →
                eligible context y = false.
Proof.
  revert i. induction fuel as [|fuel IH]; intros i; simpl; [done|].
  destruct (visibleNodeIds context !! i) as [y|] eqn:Hy; [|done].
  assert (Hrec : eligible context y = false →
            scanForward context fuel (S i) = Some x →
            ∃ j, i ≤ j ∧ visibleNodeIds context !! j = Some x
                 ∧ ∀ k z, i ≤ k → k < j → visibleNodeIds context !! k = Some z →
                          eligible context z = false).
  { intros Hne H. apply IH in H as (j & Hij & Hj & Hbetween).
    exists j. split; [lia|]. split; [done|]. intros k z Hik Hkj Hk.
    destruct (decide (k = i)) as [->|]; [congruence|].
    apply (Hbetween k); [lia | done | done]. }
  unfold eligible in Hrec.
  destruct (bool_decide (is_Some (disabledNodesMap context !! y))); [by apply Hrec|].
  destruct (bool_decide (y ∈ focusableNodes context)); [|by apply Hrec].
  intros [= <-]. exists i. split; [lia|]. split; [done|]. intros; lia.
Qed.

(** The backward scan reaches an eligible id when nothing eligible lies
    between it and the start. *)
Lemma scanBackward_hit count i y :
  i < count → visibleNodeIds context !! i = Some y → eligible context y = true →
  (∀ k z, i < k → k < count → visibleNodeIds context !! k = Some z →
          eligible context z = false) →
  scanBackward context count = Some y.
Proof.
  induction count as [|k IH]; intros Hi Hy He Hbetween; [lia|]. simpl.
  destruct (decide (i = k)) as [->|Hne].
  - rewrite Hy. unfold eligible in He.
    destruct (bool_decide (is_Some (disabledNodesMap context !! y))); [done|].
    by destruct (bool_decide (y ∈ focusableNodes context)).
  - assert (Hk : scanBackward context k = Some y).
    { apply IH; [lia | done | done |]. intros k' z ? ?. apply Hbetween; lia. }
    destruct (visibleNodeIds context !! k) as [z|] eqn:Hz; [|done].
    assert (Hze : eligible context z = false) by (apply (Hbetween k); [lia | lia | done]).
    unfold eligible in Hze.
    destruct (bool_decide (is_Some (disabledNodesMap context !! z))); [done|].
    by destruct (bool_decide (z ∈ focusableNodes context)).
Qed.

Lemma indexOf_lookup (l : list string) j x :
  NoDup l → l !! j = Some x → indexOf l x = Z.of_nat j.
Proof.
  revert j. induction l as [|y l IH]; intros j Hnd Hj; [done|].
  apply NoDup_cons in Hnd as [Hy Hnd]. simpl. destruct j as [|j]; simpl in Hj.
  - injection Hj as ->. by rewrite bool_decide_true.
  - rewrite bool_decide_false; last first.
    { intros ->. apply Hy. by eapply list_elem_of_lookup_2. }
    rewrite (IH j) by done. destruct (Z.ltb_spec (Z.of_nat j) 0); lia.
Qed.

End Scans.

(** X17. The liveness side of the navigation: on a node that is not
    disabled, whenever some visible id in the scan direction of
    ArrowDown, ArrowUp, Home or End is outside the disabled map and has a
    registered row, the command does move the focus, to such an id. *)
Theorem navigation_moves context node key :
  isDisabled node = false → isNavigationKey key = true →
  (∃ j x, inScanDirection key (indexOf (visibleNodeIds context) (id node)) j
          ∧ visibleNodeIds context !! j = Some x ∧ eligible context x = true) →
  ∃ y, handleKeyDown context node key = [Focus y; SetLastFocusedNodeId (Some y)]
       ∧ eligible context y = true.
Proof.
  intros Hd Hkey (j & x & Hdir & Hj & He). unfold handleKeyDown. rewrite Hd.
  pose proof (indexOf_ge (visibleNodeIds context) (id node)).
  pose proof (indexOf_lt (visibleNodeIds context) (id node)).
  pose proof (lookup_lt_Some _ _ _ Hj).
  destruct key; try discriminate Hkey; simpl in *.
  - destruct (scanForward_moves context
                (Z.to_nat (indexOf (visibleNodeIds context) (id node) + 1)) j x)
      as (y & -> & Hy); try done; [lia|]. by exists y.
  - destruct (scanBackward_moves context
                (Z.to_nat (indexOf (visibleNodeIds context) (id node) - 1 + 1)) j x)
      as (y & -> & Hy); try done; [lia | lia |]. by exists y.
  - destruct (scanForward_moves context 0 j x) as (y & -> & Hy); try done; [lia|].
    by exists y.
  - destruct (scanBackward_moves context (length (visibleNodeIds context)) j x)
      as (y & -> & Hy); try done. by exists y.
Qed.

Lemma navigation_moves_witness :
  ∃ y, handleKeyDown sampleNavContext (leaf "a") Key_End
       = [Focus y; SetLastFocusedNodeId (Some y)]
       ∧ eligible sampleNavContext y = true.
Proof.
  apply (navigation_moves sampleNavContext (leaf "a") Key_End eq_refl eq_refl).
  exists 2, "c". repeat split; by vm_compute.
Defined.

(** X18. Move-next then move-previous comes back: when the visible ids
    are distinct and the current node is itself eligible, ArrowUp on the
    node ArrowDown has focused moves the focus to the original node. *)
Theorem arrowDown_arrowUp_round_trip context node next x :
  NoDup (visibleNodeIds context) → id node ∈ visibleNodeIds context →
  eligible context (id node) = true → isDisabled node = false →
  handleKeyDown context node Key_ArrowDown
    = [Focus x; SetLastFocusedNodeId (Some x)] →
  id next = x → isDisabled next = false →
  handleKeyDown context next Key_ArrowUp
  = [Focus (id node); SetLastFocusedNodeId (Some (id node))].
Proof.
  intros Hnd Hin He Hd Hdown Hid Hdn.
  apply list_elem_of_lookup in Hin as [i Hi].
  unfold handleKeyDown in *. rewrite Hd in Hdown. rewrite Hdn. simpl in *.
  rewrite (indexOf_lookup _ i) in Hdown by done.
  destruct (scanForward _ _ _) as [y|] eqn:Hscan; [|done].
  injection Hdown as ->.
  apply scanForward_first in Hscan as (j & Hij & Hj & Hbetween).
  rewrite Hid, (indexOf_lookup _ j) by done.
  rewrite (scanBackward_hit context _ i (id node)); [done | lia | done | done |].
  intros k z Hik Hkj. apply Hbetween; lia.
Qed.

Lemma arrowDown_arrowUp_round_trip_witness :
  handleKeyDown sampleNavContext (leaf "c") Key_ArrowUp
  = [Focus (id (leaf "a")); SetLastFocusedNodeId (Some (id (leaf "a")))].
Proof.
  apply (arrowDown_arrowUp_round_trip sampleNavContext (leaf "a") (leaf "c") "c");
    try reflexivity.
  - compute_done.
  - compute_done.
Defined.

(** ** Depth and indentation of the rows *)

Lemma render_depth_forest context ancestors nodes :
  allExpanded (expandedNodes context) ancestors = true →
  (λ v, (view_id v, view_depth v, view_disabled v))
    <$> flat_map (TreeItemInternal_render context (length ancestors)) nodes
  = (λ an, (id an.2, length an.1, disabled an.2))
      <$> filter (λ an, allExpanded (expandedNodes context) an.1 = true)
            (nodesWithAncestors ancestors nodes).
Proof.
  revert ancestors.
  induction nodes as [|node rest IHc IHr] using forest_ind; intros anc Hanc.
  - done.
  - rewrite render_cons, nodesWithAncestors_cons, filter_cons, filter_app.
    rewrite decide_True by done.
    rewrite !fmap_cons, !fmap_app, (IHr anc) by done. simpl.
    f_equal. f_equal.
    case_bool_decide as Hexp.
    + replace (S (length anc)) with (length (anc ++ [id node]))
        by (rewrite length_app; simpl; lia).
      apply IHc. rewrite allExpanded_app, Hanc. unfold allExpanded. simpl.
      by rewrite bool_decide_true.
    + rewrite (nodesWithAncestors_hidden _ (childrenOrEmpty node) (anc ++ [id node]));
        [done|].
      rewrite allExpanded_app, Hanc. unfold allExpanded. simpl.
      by rewrite bool_decide_false.
Qed.

(** X19. The rows on screen are the visible nodes in pre-order, each at
    the depth that is the number of its ancestors, so that its left
    padding is that number of indentation steps (12 in bulk mode, 20
    otherwise); the roots are at depth and padding 0. *)
Theorem render_depth props st :
  (λ v, (view_id v, view_depth v, view_disabled v)) <$> Tree_render props st
  = (λ an, (id an.2, length an.1, disabled an.2))
      <$> filter (λ an, allExpanded (Tree_expandedNodes props st) an.1 = true)
            (nodesWithAncestors [] (props_data props))
  ∧ (λ v, paddingLeft (Tree_context props st) (view_depth v)) <$> Tree_render props st
    = (λ an, length an.1 * (if props_enableBulkActions props then 12 else 20))
        <$> filter (λ an, allExpanded (Tree_expandedNodes props st) an.1 = true)
              (nodesWithAncestors [] (props_data props)).
Proof.
  assert (H : (λ v, (view_id v, view_depth v, view_disabled v)) <$> Tree_render props st
            = (λ an, (id an.2, length an.1, disabled an.2))
                <$> filter (λ an, allExpanded (Tree_expandedNodes props st) an.1 = true)
                      (nodesWithAncestors [] (props_data props))).
  { unfold Tree_render. by rewrite (render_depth_forest _ []). }
  split; [done|].
  apply (f_equal (fmap (λ t : string * nat * bool,
                         t.1.2 * (if props_enableBulkActions props then 12 else 20)))) in H.
  rewrite <- !list_fmap_compose in H. exact H.
Qed.

Example render_depth_demo :
  (λ v, (view_id v, paddingLeft (Tree_context (demoProps []) (Tree_initialState (demoProps [])))
                      (view_depth v)))
    <$> Tree_render (demoProps []) (Tree_initialState (demoProps []))
  = [("src", 0); ("components", 12); ("ui", 24); ("tree.tsx", 24); ("form.tsx", 24);
     ("lib", 12); ("app", 12); ("public", 0); ("package.json", 0); ("README.md", 0)].
Proof. vm_compute. reflexivity. Qed.

(** ** The older implementation *)

(** X20. Outside bulk mode the newer tree item is the older one plus
    focus moves: a click does the same, and on every key the handler of
    the older implementation either makes the same calls as the newer
    one, or makes none where the newer one only moves the focus. *)
Theorem older_item_agrees context node key :
  enableBulkActions context = false →
  LocalPolicyItem.handleClick (toLocalPolicy context) node = handleClick context node
  ∧ (LocalPolicyItem.handleKeyDown (toLocalPolicy context) node key
     = handleKeyDown context node key
     ∨ (LocalPolicyItem.handleKeyDown (toLocalPolicy context) node key = []
        ∧ ∀ call, call ∈ handleKeyDown context node key →
                  ∃ y, call = Focus y ∨ call = SetLastFocusedNodeId (Some y))).
Proof.
  intros Hb. split.
  - unfold LocalPolicyItem.handleClick, handleClick, LocalPolicyItem.isDisabled,
      isDisabled, LocalPolicyItem.callOnNodeSelect, callOnNodeSelect. simpl.
    rewrite Hb. destruct (disabled node); [done|].
    by destruct (disableSelection context).
  - unfold LocalPolicyItem.handleKeyDown, handleKeyDown, LocalPolicyItem.isDisabled,
      isDisabled, LocalPolicyItem.isExpanded, isExpanded,
      LocalPolicyItem.callOnNodeSelect, callOnNodeSelect. simpl.
    destruct (disabled node); [by left|]. rewrite Hb.
    assert (Hfocus : ∀ found call, call ∈ focusFound found →
              ∃ y, call = Focus y ∨ call = SetLastFocusedNodeId (Some y)).
    { intros found call Hc. apply elem_of_focusFound in Hc as (y & _ & ?). eauto. }
    destruct key; try (by left); try (right; split; [done|]; by apply Hfocus).
    + destruct (hasChildren node && _); [by left|]. right. split; [done|].
      intros call Hcall.
      destruct (parentNodeMap context !! id node) as [parentId|];
        [|by apply not_elem_of_nil in Hcall].
      destruct (_ && _); [|by apply not_elem_of_nil in Hcall].
      exists parentId. apply elem_of_cons in Hcall as [->|Hcall]; [by left|].
      apply list_elem_of_singleton in Hcall. by right.
Qed.

Lemma older_item_agrees_witness :
  LocalPolicyItem.handleClick
    (toLocalPolicy (Tree_context (propsOf sampleFlat) (stateOf ∅ None))) (leaf "leafA")
  = handleClick (Tree_context (propsOf sampleFlat) (stateOf ∅ None)) (leaf "leafA").
Proof.
  apply (proj1 (older_item_agrees (Tree_context (propsOf sampleFlat) (stateOf ∅ None))
                  (leaf "leafA") Key_Enter eq_refl)).
Defined.

(** ** The demo page *)

(** X21. On the demo page the checkboxes and the connector lines are
    never shown together: whatever the sequence of switch events from
    the initial state, [showCheckboxes] and [showLines] are not both
    set, and switching one of the two on switches the other off. *)
Theorem page_toggles_exclusive (events : list PageEvent) :
  let page := fold_left pageStep events initialPage in
  showCheckboxes page && showLines page = false
  ∧ showLines (pageStep page (CheckboxesSwitch true)) = false
  ∧ showCheckboxes (pageStep page (LinesSwitch true)) = false.
Proof.
  cbv zeta. split; [|done].
  assert (Hinv : ∀ page, showCheckboxes page && showLines page = false →
            showCheckboxes (fold_left pageStep events page)
            && showLines (fold_left pageStep events page) = false).
  { induction events as [|event events IH]; intros page Hpage; [done|].
    simpl. apply IH. destruct event as [[] | [] | ? | ? ?]; simpl; try done.
    by destruct (showCheckboxes page). }
  by apply Hinv.
Qed.

(** ** The tab order after a focus move *)

Lemma Tree_render_row props st n :
  n ∈ visibleNodes (Tree_expandedNodes props st) (props_data props) →
  ∃ v, v ∈ Tree_render props st ∧ view_id v = id n ∧ view_disabled v = disabled n.
Proof.
  intros Hn. unfold visibleNodes in Hn.
  apply list_elem_of_fmap in Hn as ([anc n'] & -> & Hin). simpl.
  assert (Ht : (id n', length anc, disabled n')
               ∈ (λ v, (view_id v, view_depth v, view_disabled v))
                   <$> Tree_render props st).
  { unfold Tree_render. rewrite (render_depth_forest _ []) by done.
    apply list_elem_of_fmap. by exists (anc, n'). }
  apply list_elem_of_fmap in Ht as (v & [= Hid _ Hd] & Hv). eauto.
Qed.

Lemma focus_then_tabbable props st st' y :
  uniqueIds (props_data props) → y ≠ "" →
  internalExpanded st' = internalExpanded st → lastFocused st' = Some y →
  (∃ n, n ∈ visibleNodes (Tree_expandedNodes props st) (props_data props)
        ∧ id n = y ∧ disabled n = false) →
  focusTargets (Tree_render props st') = [y].
Proof.
  intros Hu Hne Hexp Hlast (n & Hn & Hid & Hd).
  assert (HE : Tree_expandedNodes props st' = Tree_expandedNodes props st).
  { unfold Tree_expandedNodes. by rewrite Hexp. }
  rewrite <- HE in Hn. apply Tree_render_row in Hn as (v & Hv & Hvid & Hvd).
  assert (Hne' : lastFocused st' ≠ Some "") by (rewrite Hlast; congruence).
  destruct (Tree_render_target props st' Hne') as (t & Htab & Hfocused & _).
  rewrite (Hfocused y Hlast) in Htab.
  assert (Hnd : NoDup (view_id <$> Tree_render props st')).
  { rewrite Tree_render_ids. by apply visibleNodeIds_NoDup. }
  destruct (focusTargets_single _ y Hnd Htab) as (_ & Hthe & _).
  apply (Hthe v); congruence.
Qed.

(** X23. The roving tabindex follows the focus (ids unique, the focused
    id not empty).  After ArrowDown, ArrowUp, Home or End has moved the
    focus to an id, and after a visible enabled row has received the
    focus, the calls applied to the tree's state, the tab order of the
    re-rendered tree is exactly that one row. *)
Theorem focus_move_then_tabbable props st node key y :
  uniqueIds (props_data props) →
  (y ≠ "" → isNavigationKey key = true →
   handleKeyDown (Tree_context props st) node key
     = [Focus y; SetLastFocusedNodeId (Some y)] →
   focusTargets
     (Tree_render props
        (applyCalls st (handleKeyDown (Tree_context props st) node key)))
   = [y])
  ∧ (id node ≠ "" → disabled node = false →
     node ∈ visibleNodes (Tree_expandedNodes props st) (props_data props) →
     focusTargets (Tree_render props (applyCalls st (handleFocus node)))
     = [id node]).
Proof.
  intros Hu. split.
  - intros Hne Hkey Hcalls.
    assert (Hfocus : Focus y ∈ handleKeyDown (Tree_context props st) node key)
      by (rewrite Hcalls; apply list_elem_of_here).
    apply navigation_target in Hfocus as [Hmap Hvis]; [|done].
    rewrite Tree_visibleNodeIds in Hvis. rewrite Tree_disabledNodesMap in Hmap.
    apply list_elem_of_fmap in Hvis as (n & -> & Hn).
    rewrite Hcalls. apply (focus_then_tabbable props st); try done.
    exists n. split; [done|]. split; [done|].
    destruct (disabled n) eqn:Hd; [|done].
    assert (Hsome : is_Some (markDisabled
                      (visibleNodes (Tree_expandedNodes props st) (props_data props))
                      ∅ !! id n)).
    { apply lookup_markDisabled. left. eauto. }
    rewrite Hmap in Hsome. by destruct Hsome.
  - intros Hne Hd Hn. apply (focus_then_tabbable props st); try done. eauto.
Qed.

Lemma focus_move_then_tabbable_witness :
  focusTargets
    (Tree_render (propsOf sampleDisabledChild)
       (applyCalls
          {| internalExpanded := {[ "a" ]}; lastFocused := None;
             registered := {[ "a"; "b"; "c" ]} |}
          (handleKeyDown
             (Tree_context (propsOf sampleDisabledChild)
                {| internalExpanded := {[ "a" ]}; lastFocused := None;
                   registered := {[ "a"; "b"; "c" ]} |})
             (parent "a" [mkNode "b" None true]) Key_ArrowDown)))
  = ["c"].
Proof.
  apply (proj1 (focus_move_then_tabbable (propsOf sampleDisabledChild)
                  {| internalExpanded := {[ "a" ]}; lastFocused := None;
                     registered := {[ "a"; "b"; "c" ]} |}
                  (parent "a" [mkNode "b" None true]) Key_ArrowDown "c"
                  ltac:(unfold uniqueIds; compute_done))).
  - discriminate.
  - reflexivity.
  - by vm_compute.
Defined.
